(** * Rig: process bridge and session orchestration

    A shallow embedding of the process-bridge layer of Rig:
    - [PiBridge]: the line-JSON channel of [server/src/pi-bridge.ts]
      ([sendCommand], the [rl.on("line")] handler, the timeout callback and
      the [child.on("exit")] handler of [spawnPi]);
    - [EventFanout]: the event buffer and WebSocket fan-out of
      [server/src/routes.ts] ([registerSession] and [GET /api/ws/:bridgeId]);
    - [ResumeRoute]: the [POST /api/resume] handler with its awaits;
    - [RigDispatch]: the duplicate-dispatch guard of [rig_dispatch]
      ([operator/extensions/rig-tools.ts]);
    - [Reaper], [Turn], [TurnQueue]: the operator's [SessionManager]
      ([reapIdle]; [runTurn]; [sendMessage] with [ensureConversation]). *)

From stdpp Require Import base gmap strings list pretty.
From Stdlib Require Import ZArith Lia.

Open Scope string_scope.
Open Scope list_scope.

(* ------------------------------------------------------------------ *)
(** ** The line-JSON process channel ([pi-bridge.ts]) *)
(* ------------------------------------------------------------------ *)

Module PiBridge.

(** A parsed stdout line.  Only the fields the line handler reads are kept:
    [type] and [id] (a string id, [None] when absent or not a string: the
    keys of [pendingRequests] are strings, so a non-string id never
    matches), plus an opaque payload. *)
Record json := mkJson {
  jtype : option string;
  jid : option string;
  jbody : nat;
}.

(** A line of stdout: either it parses to an object, or [JSON.parse]
    (or the [data.type] access on [null]) throws and the line is
    ignored by the [catch]. *)
Inductive line :=
| LJson (d : json)
| LJunk.

(** Errors carried by rejected promises, by message. *)
Inductive error :=
| ErrNotAlive                      (* "Pi process is not alive" *)
| ErrTimeout (ctype : string)      (* "Timeout waiting for response to ..." *)
| ErrExited (code signal : option Z). (* "Pi process exited (code=.., signal=..)" *)

(** The settled state of a JS promise. *)
Inductive outcome :=
| Resolved (d : json)
| Rejected (e : error).

(** The mutable [PiProcess] object, plus the promises created by
    [sendCommand].  Promises are named by a handle, the number of
    [sendCommand] calls made before ([issued]); [assigned] records the
    request id each call put on its command line, and [timers] the
    armed [setTimeout] of each call (the [timer] field of a pending
    entry).  [settled] holds the promise states (a promise settles once:
    a later [resolve]/[reject] is ignored). *)
Record chan := mkChan {
  alive : bool;
  nextRequestId : N;
  pendingRequests : gmap string nat;
  timers : gmap nat (string * string);  (* handle -> (request id, command type) *)
  settled : gmap nat outcome;
  assigned : gmap nat string;
  issued : nat;
  stdin : list (string * string);       (* written command lines: (type, id) *)
  events : list json;                   (* [bridge.events.emit("event", data)] *)
  exits : list (option Z * option Z);   (* [bridge.events.emit("exit", ..)] *)
}.

Definition init_chan : chan :=
  mkChan true 0 ∅ ∅ ∅ ∅ 0 [] [] [].

(** [`req_${n}`] *)
Definition req_id (n : N) : string := "req_" +:+ pretty n.

(** [p.resolve(v)] / [p.reject(e)]: first settlement wins. *)
Definition settle (h : nat) (o : outcome) (m : gmap nat outcome) : gmap nat outcome :=
  match m !! h with
  | Some _ => m
  | None => <[h := o]> m
  end.

(** JS truthiness of [data.id]. *)
Definition id_truthy (o : option string) : bool :=
  match o with
  | Some s => negb (String.eqb s "")
  | None => false
  end.

(** [sendCommand(bridge, command, timeoutMs)] for a command of type [ctype]:
    the returned promise is handle [issued s]. *)
Definition sendCommand (s : chan) (ctype : string) : chan :=
  let h := issued s in
  if negb (alive s) then
    mkChan (alive s) (nextRequestId s) (pendingRequests s) (timers s)
      (settle h (Rejected ErrNotAlive) (settled s)) (assigned s) (S h)
      (stdin s) (events s) (exits s)
  else
    let n := (nextRequestId s + 1)%N in
    let id := req_id n in
    mkChan (alive s) n (<[id := h]> (pendingRequests s))
      (<[h := (id, ctype)]> (timers s)) (settled s)
      (<[h := id]> (assigned s)) (S h)
      (stdin s ++ [(ctype, id)]) (events s) (exits s).

(** The test of the line handler:
    [data.type === "response" && data.id && bridge.pendingRequests.has(data.id)],
    returning the matched key and the pending promise. *)
Definition response_match (s : chan) (d : json) : option (string * nat) :=
  match jid d with
  | Some id =>
      if bool_decide (jtype d = Some "response") && id_truthy (jid d) then
        match pendingRequests s !! id with
        | Some h => Some (id, h)
        | None => None
        end
      else None
  | None => None
  end.

(** The [rl.on("line")] handler: a matching response resolves its pending
    promise (deleting the entry and clearing its timer); anything else
    that parses is emitted as an event; a line that does not parse is
    dropped. *)
Definition onLine (s : chan) (l : line) : chan :=
  match l with
  | LJunk => s
  | LJson d =>
      match response_match s d with
      | Some (id, h) =>
          mkChan (alive s) (nextRequestId s) (delete id (pendingRequests s))
            (delete h (timers s)) (settle h (Resolved d) (settled s))
            (assigned s) (issued s) (stdin s) (events s) (exits s)
      | None =>
          mkChan (alive s) (nextRequestId s) (pendingRequests s)
            (timers s) (settled s) (assigned s) (issued s) (stdin s)
            (events s ++ [d]) (exits s)
      end
  end.

(** The timeout callback of [sendCommand] for promise [h]; it only runs
    while its timer is armed (a [clearTimeout] disarms it). *)
Definition onTimer (s : chan) (h : nat) : chan :=
  match timers s !! h with
  | Some (id, ctype) =>
      mkChan (alive s) (nextRequestId s) (delete id (pendingRequests s))
        (delete h (timers s)) (settle h (Rejected (ErrTimeout ctype)) (settled s))
        (assigned s) (issued s) (stdin s) (events s) (exits s)
  | None => s
  end.

(** The loop [for (const [id, pending] of bridge.pendingRequests)
    { clearTimeout(pending.timer); pending.reject(err) }]. *)
Definition reject_all (err : error) (l : list (string * nat))
    (acc : gmap nat (string * string) * gmap nat outcome)
    : gmap nat (string * string) * gmap nat outcome :=
  foldr (fun '(_, h) a => (delete h a.1, settle h (Rejected err) a.2)) acc l.

(** The [child.on("exit")] handler: mark dead, emit ["exit"], reject every
    pending request with the same error, clear the map. *)
Definition onExit (s : chan) (code signal : option Z) : chan :=
  let r := reject_all (ErrExited code signal) (map_to_list (pendingRequests s))
             (timers s, settled s) in
  mkChan false (nextRequestId s) ∅ r.1 r.2 (assigned s) (issued s)
    (stdin s) (events s) (exits s ++ [(code, signal)]).

(** What the event loop can run next on one channel: a [sendCommand] call,
    a stdout line, an armed timeout, or the process exit. *)
Inductive action :=
| ASend (ctype : string)
| ALine (l : line)
| ATimer (h : nat)
| AExit (code signal : option Z).

Definition step (s : chan) (a : action) : chan :=
  match a with
  | ASend c => sendCommand s c
  | ALine l => onLine s l
  | ATimer h => onTimer s h
  | AExit c g => onExit s c g
  end.

(** Any interleaving of calls, lines, timeouts and exit from spawn. *)
Definition run (acts : list action) (s : chan) : chan := fold_left step acts s.

Definition resp (id : string) (b : nat) : line :=
  LJson (mkJson (Some "response") (Some id) b).

(** The invariant of reachable channel states: a pending entry names an
    unsettled promise whose command carried that id; ids were assigned
    from the counter, one per promise; a resolved promise holds a line
    bearing its own id; an armed timer belongs to its own promise. *)
Record chan_inv (s : chan) : Prop := {
  inv_pending : forall id h, pendingRequests s !! id = Some h ->
    assigned s !! h = Some id /\ settled s !! h = None;
  inv_assigned : forall h id, assigned s !! h = Some id ->
    h < issued s /\ exists n, id = req_id n /\ (n <= nextRequestId s)%N;
  inv_assigned_inj : forall h1 h2 id, assigned s !! h1 = Some id ->
    assigned s !! h2 = Some id -> h1 = h2;
  inv_settled : forall h o, settled s !! h = Some o -> h < issued s;
  inv_resolved : forall h d, settled s !! h = Some (Resolved d) ->
    exists id, assigned s !! h = Some id /\ jid d = Some id;
  inv_timers : forall h id c, timers s !! h = Some (id, c) -> assigned s !! h = Some id;
}.

End PiBridge.

(* ------------------------------------------------------------------ *)
(** ** Event buffer and WebSocket fan-out ([routes.ts]) *)
(* ------------------------------------------------------------------ *)

Module EventFanout.

(** The WebSocket messages a client receives from one bridge.  An event
    message carries the event's arrival index on the bridge (ghost: it
    names the arrival, the JSON sent is [{type:"event", event}]). *)
Inductive msg :=
| MEvent (i : nat) (e : nat)      (* {type:"event", event} *)
| MFiles (files : list string)    (* {type:"files", files} *)
| MState (data : nat)             (* {type:"state", data} *)
| MExit.                          (* {type:"exit", ...info} *)

(** One [ActiveSession] with its handler closure.  Arrays are kept in a
    store [heap]: [closureBuf] is the array bound to the [const eventBuffer]
    that the ["event"] handler of [registerSession] pushes to, [sessionBuf]
    the array the field [session.eventBuffer] points to (the WebSocket
    handler replays it and then assigns a fresh [[]] to the field).
    [wsClients] is the [Set] in insertion order; a socket is removed from it
    when it closes, so every member is open ([readyState === 1]).
    [files] is [fileTracker.getFiles()]. *)
Record fan := mkFan {
  heap : gmap nat (list (nat * nat));
  closureBuf : nat;
  sessionBuf : nat;
  nextArr : nat;
  wsClients : list nat;
  inbox : gmap nat (list msg);
  nextSock : nat;
  evCount : nat;
  files : list string;
}.

Section Fanout.

(** [fileTracker.processEvent], a separate component: how an event changes
    the tracked file list. *)
Variable processEvent : list string -> nat -> list string.

(** State right after [registerSession(bridge)]. *)
Definition init_fan : fan :=
  mkFan {[0 := []]} 0 0 1 [] ∅ 0 0 [].

Definition received (s : fan) (k : nat) : list msg := default [] (inbox s !! k).

(** [ws.send(m)] to socket [k]. *)
Definition send (k : nat) (m : msg) (ib : gmap nat (list msg)) : gmap nat (list msg) :=
  <[k := default [] (ib !! k) ++ [m]]> ib.

Definition broadcast (ks : list nat) (m : msg) (ib : gmap nat (list msg)) : gmap nat (list msg) :=
  fold_left (fun acc k => send k m acc) ks ib.

(** [bridge.events.on("event", ...)] of [registerSession]. *)
Definition onEvent (s : fan) (e : nat) : fan :=
  let i := evCount s in
  let fs := processEvent (files s) e in
  match wsClients s with
  | [] =>
      mkFan (<[closureBuf s := default [] (heap s !! closureBuf s) ++ [(i, e)]]> (heap s))
        (closureBuf s) (sessionBuf s) (nextArr s) [] (inbox s) (nextSock s) (S i) fs
  | ks =>
      mkFan (heap s) (closureBuf s) (sessionBuf s) (nextArr s) ks
        (broadcast ks (MEvent i e) (inbox s)) (nextSock s) (S i) fs
  end.

(** The synchronous part of the [GET /api/ws/:bridgeId] handler for a new
    socket [k := nextSock s]: the files message, the replay of
    [session.eventBuffer], [session.eventBuffer = []], and
    [session.wsClients.add(socket)].  The [get_state] reply arrives later
    ([onStateReply]). *)
Definition onConnect (s : fan) : fan :=
  let k := nextSock s in
  let ib1 := match files s with [] => inbox s | fs => send k (MFiles fs) (inbox s) end in
  let ib2 := fold_left (fun acc '(i, e) => send k (MEvent i e) acc)
               (default [] (heap s !! sessionBuf s)) ib1 in
  mkFan (<[nextArr s := []]> (heap s)) (closureBuf s) (nextArr s) (S (nextArr s))
    (wsClients s ++ [k]) ib2 (S k) (evCount s) (files s).

(** [socket.on("close")]: [session.wsClients.delete(socket)]. *)
Definition onClose (s : fan) (k : nat) : fan :=
  mkFan (heap s) (closureBuf s) (sessionBuf s) (nextArr s)
    (filter (fun k' => k' <> k) (wsClients s)) (inbox s) (nextSock s) (evCount s) (files s).

(** The [.then] of the [get_state] sent on connect, for socket [k]. *)
Definition onStateReply (s : fan) (k : nat) (d : nat) : fan :=
  if bool_decide (k ∈ wsClients s) then
    mkFan (heap s) (closureBuf s) (sessionBuf s) (nextArr s) (wsClients s)
      (send k (MState d) (inbox s)) (nextSock s) (evCount s) (files s)
  else s.

(** [bridge.events.on("exit", ...)] of [registerSession]. *)
Definition onBridgeExit (s : fan) : fan :=
  mkFan (heap s) (closureBuf s) (sessionBuf s) (nextArr s) (wsClients s)
    (broadcast (wsClients s) MExit (inbox s)) (nextSock s) (evCount s) (files s).

Inductive action :=
| AEvent (e : nat)
| AConnect
| AClose (k : nat)
| AStateReply (k : nat) (d : nat)
| ABridgeExit.

Definition step (s : fan) (a : action) : fan :=
  match a with
  | AEvent e => onEvent s e
  | AConnect => onConnect s
  | AClose k => onClose s k
  | AStateReply k d => onStateReply s k d
  | ABridgeExit => onBridgeExit s
  end.

Definition run (acts : list action) (s : fan) : fan := fold_left step acts s.

End Fanout.

(** The events [es] arriving with indices [i], [i+1], ... *)
Fixpoint arrivals (i : nat) (es : list nat) : list (nat * nat) :=
  match es with
  | [] => []
  | e :: es => (i, e) :: arrivals (S i) es
  end.

Definition as_msgs (l : list (nat * nat)) : list msg :=
  map (fun '(i, e) => MEvent i e) l.

Definition files_msg (fs : list string) : list msg :=
  match fs with [] => [] | _ => [MFiles fs] end.

(** A message pushed to an attached socket for something that happened
    after it attached, when [n] events had arrived before. *)
Definition after_attach (n : nat) (m : msg) : Prop :=
  match m with
  | MEvent i _ => n <= i
  | MFiles _ => False
  | MState _ => True
  | MExit => True
  end.

(** Invariant of the session's buffers and sockets: the handler's array is
    array 0; once a socket has attached, [session.eventBuffer] points to
    another array, which is empty; sockets are numbered in attach order. *)
Record fan_inv (s : fan) : Prop := {
  finv_closure : closureBuf s = 0;
  finv_arr : 1 <= nextArr s;
  finv_session : 0 < nextSock s -> sessionBuf s <> 0 /\ heap s !! sessionBuf s = Some [];
  finv_clients : forall k, k ∈ wsClients s -> k < nextSock s;
  finv_inbox : forall k, nextSock s <= k -> inbox s !! k = None;
}.

End EventFanout.

(* ------------------------------------------------------------------ *)
(** ** Operator sessions: idle reaping ([SessionManager.reapIdle]) *)
(* ------------------------------------------------------------------ *)

Module Reaper.

(** The fields of an [ActiveConversation] that the sweep reads;
    [bridge] names the operator pi process. *)
Record conversation := mkConv {
  conversationId : string;
  bridge : nat;
  sessionFile : option string;
  sessionId : option string;
  modelProvider : option string;
  modelId : option string;
  thinkingLevel : option string;
  lastActiveAt : Z;
}.

(** A persisted conversation record ([store.conversations[id]]). *)
Record record := mkRecord {
  r_conversationId : string;
  r_sessionFile : option string;
  r_sessionId : option string;
  r_modelProvider : option string;
  r_modelId : option string;
  r_thinkingLevel : option string;
  r_updatedAt : Z;
}.

(** [this.active] (a [Map], in insertion order), the session store, and
    the [killPi] calls made. *)
Record manager := mkManager {
  active : list (string * conversation);
  store : gmap string record;
  killed : list nat;
}.

(** [setInterval(() => void this.reapIdle(), 30_000)] *)
Definition idle_sweep_interval_ms : Z := 30000.

(** The record written by [persistConversation] at time [now]. *)
Definition persisted (c : conversation) (now : Z) : record :=
  mkRecord (conversationId c) (sessionFile c) (sessionId c) (modelProvider c)
    (modelId c) (thinkingLevel c) now.

(** The body of the [for] loop of [reapIdle] over the entries of
    [this.active] (deleting the entry being visited does not disturb the
    iteration over the others). *)
Fixpoint reap_loop (cutoff now : Z) (entries : list (string * conversation)) (m : manager)
    : manager :=
  match entries with
  | [] => m
  | (cid, c) :: rest =>
      if Z.leb cutoff (lastActiveAt c) then reap_loop cutoff now rest m
      else
        reap_loop cutoff now rest
          (mkManager (filter (fun kv => kv.1 <> cid) (active m))
             (<[conversationId c := persisted c now]> (store m))
             (killed m ++ [bridge c]))
  end.

(** [reapIdle()] at time [now], with [config.sessionTimeoutSeconds]. *)
Definition reapIdle (sessionTimeoutSeconds now : Z) (m : manager) : manager :=
  reap_loop (now - sessionTimeoutSeconds * 1000) now (active m) m.

(** Idle for longer than the threshold at time [now]. *)
Definition stale (sessionTimeoutSeconds now : Z) (kv : string * conversation) : bool :=
  Z.ltb (lastActiveAt kv.2) (now - sessionTimeoutSeconds * 1000).

End Reaper.

(* ------------------------------------------------------------------ *)
(** ** Operator tool [rig_dispatch] and its dedupe window *)
(* ------------------------------------------------------------------ *)

Module RigDispatch.

Definition DUPLICATE_DISPATCH_WINDOW_MS : Z := 45000.
Definition AWAITING_MODEL_WINDOW_MS : Z := 10 * 60000.

(** Strings are sequences of Latin-1 code units. JavaScript's [\s], which
    is also what [trim] strips, on them: tab, line feed, vertical tab, form
    feed, carriage return, space and no-break space. *)
Definition is_space (c : Ascii.ascii) : bool :=
  existsb (Nat.eqb (Ascii.nat_of_ascii c)) [9; 10; 11; 12; 13; 32; 160]%nat.

Fixpoint drop_ws (l : list Ascii.ascii) : list Ascii.ascii :=
  match l with
  | c :: r => if is_space c then drop_ws r else l
  | [] => []
  end.

(** [String.prototype.trim] *)
Definition trim (l : list Ascii.ascii) : list Ascii.ascii :=
  rev (drop_ws (rev (drop_ws l))).

(** [toLowerCase] on a Latin-1 code unit: [A-Z] and the capitals
    U+00C0 to U+00DE other than U+00D7 (the multiplication sign). *)
Definition to_lower (c : Ascii.ascii) : Ascii.ascii :=
  let n := Ascii.nat_of_ascii c in
  if (((65 <=? n) && (n <=? 90)) || ((192 <=? n) && (n <=? 222) && negb (n =? 215)))%nat
  then Ascii.ascii_of_nat (n + 32) else c.

(** [.replace(/\s+/g, " ")]; [in_ws] is set inside a run of spaces. *)
Fixpoint collapse (in_ws : bool) (l : list Ascii.ascii) : list Ascii.ascii :=
  match l with
  | [] => []
  | c :: r =>
      if is_space c then (if in_ws then collapse true r else Ascii.ascii_of_nat 32 :: collapse true r)
      else c :: collapse false r
  end.

(** [message.trim().toLowerCase().replace(/\s+/g, " ")] *)
Definition normalize (message : string) : string :=
  String.string_of_list_ascii
    (collapse false (map to_lower (trim (String.list_ascii_of_string message)))).

(** [x || ""] for an optional string. *)
Definition or_empty (o : option string) : string := default "" o.

(** JavaScript truthiness of an optional string. *)
Definition truthy (o : option string) : bool :=
  match o with Some s => negb (String.eqb s "") | None => false end.

Definition dispatchDedupeKey (cwd message : string) (provider model thinkingLevel : option string)
    : string :=
  String.concat "::" [cwd; normalize message; or_empty provider; or_empty model;
                      or_empty thinkingLevel].

Definition dispatchRequestKey (cwd message : string) (thinkingLevel : option string) : string :=
  String.concat "::" [cwd; normalize message; or_empty thinkingLevel].

Record params := mkParams {
  p_message : string;
  p_provider : option string;
  p_model : option string;
  p_thinkingLevel : option string;
}.

(** The [details] of a result, reduced to what the dedupe decides:
    the bridge id returned by [POST /api/dispatch] and the [deduped] marker. *)
Inductive result :=
  | NeedsProject
  | AwaitingModel
  | NeedsModel
  | Dispatched (bridgeId : string) (deduped : bool).

(** The extension's module state ([recentDispatches] with [at] and the
    returned bridge id, [awaitingModelSelection]) and, on the server side,
    [bridgeIdCounter] and the pi processes spawned by [/api/dispatch]. *)
Record tools := mkTools {
  recentDispatches : gmap string (Z * string);
  awaitingModelSelection : gmap string Z;
  bridgeIdCounter : N;
  spawned : list string;
}.

Definition bridge_id (n : N) : string := "bridge_" +:+ pretty n.

(** [POST /api/dispatch] when it succeeds: [spawnPi] takes the next id. *)
Definition api_dispatch (st : tools) : tools * string :=
  let n := (bridgeIdCounter st + 1)%N in
  (mkTools (recentDispatches st) (awaitingModelSelection st) n (spawned st ++ [bridge_id n]),
   bridge_id n).

(** [existing && now - existing.at < DUPLICATE_DISPATCH_WINDOW_MS],
    giving the recorded bridge id. *)
Definition live_dispatch (existing : option (Z * string)) (now : Z) : option string :=
  match existing with
  | Some (at_, bid) => if Z.ltb (now - at_) DUPLICATE_DISPATCH_WINDOW_MS then Some bid else None
  | None => None
  end.

(** [execute] of [rig_dispatch] at time [now]; [resolved] is the result of
    [resolveDispatchCwd] ([None] when it is not ok). *)
Definition execute (resolved : option string) (p : params) (now : Z) (st : tools)
    : tools * result :=
  match resolved with
  | None => (st, NeedsProject)
  | Some cwd =>
      let requestKey := dispatchRequestKey cwd (p_message p) (p_thinkingLevel p) in
      let gated :=
        match awaitingModelSelection st !! requestKey with
        | Some since => negb (Z.eqb since 0) && Z.ltb (now - since) AWAITING_MODEL_WINDOW_MS
        | None => false
        end in
      if gated && truthy (p_provider p) && truthy (p_model p) then (st, AwaitingModel)
      else if negb (truthy (p_provider p) && truthy (p_model p)) then
        (mkTools (recentDispatches st) (<[requestKey := now]> (awaitingModelSelection st))
           (bridgeIdCounter st) (spawned st), NeedsModel)
      else
        let dedupeKey := dispatchDedupeKey cwd (p_message p) (p_provider p) (p_model p)
                           (p_thinkingLevel p) in
        match live_dispatch (recentDispatches st !! dedupeKey) now with
        | Some bid => (st, Dispatched bid true)
        | None =>
            let '(st', bid') := api_dispatch st in
            (mkTools (<[dedupeKey := (now, bid')]> (recentDispatches st'))
               (delete requestKey (awaitingModelSelection st'))
               (bridgeIdCounter st') (spawned st'), Dispatched bid' false)
        end
  end.

End RigDispatch.

(* ------------------------------------------------------------------ *)
(** ** Operator turns ([SessionManager.runTurn]) *)
(* ------------------------------------------------------------------ *)

Module Turn.

(** A content block: [{type: "text", text}] or anything else. *)
Inductive block := BText (text : string) | BOther.

(** [message.content] when present and truthy: a string (the empty string
    being falsy), an array of blocks, or another object; absent or falsy
    content is [None]. *)
Inductive content := CString (s : string) | CArray (blocks : list block) | COther.

Record message := mkMessage {
  role : option string;
  mcontent : option content;
}.

(** An event object from the operator pi's stdout. *)
Record event := mkEvent {
  etype : string;
  emessage : option message;
  etoolName : option string;
}.

Definition newline : string := String.String (Ascii.ascii_of_nat 10) EmptyString.

Definition extractTextFromContent (c : option content) : string :=
  match c with
  | Some (CString s) => s
  | Some (CArray bs) =>
      String.concat newline (flat_map (fun b => match b with BText t => [t] | BOther => [] end) bs)
  | _ => ""
  end.

Definition trim_string (s : string) : string :=
  String.string_of_list_ascii (RigDispatch.trim (String.list_ascii_of_string s)).

Inductive settlement := Resolved (text : string) (toolCalls : list string) | Rejected (reason : string).

(** The closure state of one [runTurn] call, with its promise [done], the
    listeners and timer it holds, and the kill signals sent to the bridge. *)
Record turn := mkTurn {
  assistantText : string;
  seenAssistantMessage : bool;
  finished : bool;
  toolCalls : list string;
  listening : bool;
  timerArmed : bool;
  done : option settlement;
  killSignals : list string;
}.

(** After [sendRaw(prompt)]: listeners attached, 10-minute timer armed. *)
Definition start_turn : turn := mkTurn "" false false [] true true None [].

Definition TURN_TIMEOUT_MS : Z := 10 * 60000.

(** A promise settles once. *)
Definition settle (t : turn) (r : settlement) : option settlement :=
  match done t with Some r0 => Some r0 | None => Some r end.

Definition cleanup (t : turn) : turn :=
  mkTurn (assistantText t) (seenAssistantMessage t) (finished t) (toolCalls t) false false
    (done t) (killSignals t).

Definition set_text (t : turn) (x : string) : turn :=
  mkTurn x (seenAssistantMessage t) (finished t) (toolCalls t) (listening t) (timerArmed t)
    (done t) (killSignals t).

Definition finalize (t : turn) : turn :=
  if finished t then t
  else
    let t' := cleanup t in
    mkTurn (assistantText t') (seenAssistantMessage t') true (toolCalls t') (listening t')
      (timerArmed t') (settle t' (Resolved (trim_string (assistantText t)) (toolCalls t)))
      (killSignals t').

Definition is_role (m : option message) (r : string) : bool :=
  match m with Some msg => bool_decide (role msg = Some r) | None => false end.

Definition msg_content (m : option message) : option content :=
  match m with Some msg => mcontent msg | None => None end.

(** [onEvent] (every event here is an object). *)
Definition onEvent (t : turn) (e : event) : turn :=
  if String.eqb (etype e) "message_start" && is_role (emessage e) "assistant" then
    let t1 := set_text t (extractTextFromContent (msg_content (emessage e))) in
    mkTurn (assistantText t1) true (finished t1) (toolCalls t1) (listening t1) (timerArmed t1)
      (done t1) (killSignals t1)
  else if String.eqb (etype e) "message_update" && seenAssistantMessage t
          && is_role (emessage e) "assistant" then
    set_text t (extractTextFromContent (msg_content (emessage e)))
  else if String.eqb (etype e) "message" && is_role (emessage e) "assistant" then
    finalize (set_text t (extractTextFromContent (msg_content (emessage e))))
  else
    let ended :=
      if String.eqb (etype e) "message_end" && seenAssistantMessage t then
        let r := match emessage e with Some msg => role msg | None => None end in
        if match r with None => true | Some r => String.eqb r "assistant" end then
          let nextText :=
            match msg_content (emessage e) with
            | None | Some (CString "") => assistantText t
            | Some c => extractTextFromContent (Some c)
            end in
          if Nat.ltb 0 (String.length (trim_string nextText)) then
            Some (finalize (set_text t nextText))
          else None
        else None
      else None in
    match ended with
    | Some t' => t'
    | None =>
        if String.eqb (etype e) "tool_execution_start" then
          mkTurn (assistantText t) (seenAssistantMessage t) (finished t)
            (toolCalls t ++ [default "tool" (etoolName e)]) (listening t) (timerArmed t)
            (done t) (killSignals t)
        else if String.eqb (etype e) "tool_execution_end"
                && bool_decide (etoolName e = Some "rig_dispatch") then t
        else if String.eqb (etype e) "agent_end" then finalize t
        else t
    end.

(** The timer callback: [cleanup(); reject(...)]. *)
Definition onTimeout (t : turn) : turn :=
  let t' := cleanup t in
  mkTurn (assistantText t') (seenAssistantMessage t') (finished t') (toolCalls t')
    (listening t') (timerArmed t')
    (settle t' (Rejected "Timed out waiting for operator turn to finish")) (killSignals t').

Definition onExit (t : turn) : turn :=
  if finished t then t
  else
    let t' := cleanup t in
    mkTurn (assistantText t') (seenAssistantMessage t') (finished t') (toolCalls t')
      (listening t') (timerArmed t')
      (settle t' (Rejected "Operator session exited while handling message")) (killSignals t').

(** What can happen to a running turn: an event on the bridge (delivered
    only while the listener is attached), the timer firing (only while
    armed), or the bridge exiting. *)
Inductive action := AEvent (e : event) | ATimeout | AExit.

Definition step (t : turn) (a : action) : turn :=
  match a with
  | AEvent e => if listening t then onEvent t e else t
  | ATimeout => if timerArmed t then onTimeout t else t
  | AExit => if listening t then onExit t else t
  end.

Definition run (acts : list action) (t : turn) : turn := fold_left step acts t.

End Turn.

(* ------------------------------------------------------------------ *)
(** ** Operator turn queue ([sendMessage] / [ensureConversation]) *)
(* ------------------------------------------------------------------ *)

Module TurnQueue.

(** An [ActiveConversation] object: its bridge and the turns chained on
    its [queue], in chaining order; the head is the one allowed to run. *)
Record conv := mkConv {
  bridgeOf : nat;
  chain : list nat;
}.

(** Where one [sendMessage] call is. [PSpawning] covers the awaits of
    [ensureConversation] up to [this.active.set]; [PAttached o] is after
    [ensureConversation] returned conversation object [o]; [PQueued o] after
    [conversation.queue.then(runTurn)]; [PRunning o] after [runTurn] wrote
    its prompt. *)
Inductive phase :=
  | PStart
  | PSpawning
  | PAttached (o : nat)
  | PQueued (o : nat)
  | PRunning (o : nat)
  | PDone.

Record task := mkTask {
  tconv : string;
  tphase : phase;
}.

(** Observable effects: a prompt written to a bridge for a turn, and the
    terminal event (or failure) of a turn. *)
Inductive logev := Prompt (bridge turn : nat) | Terminal (turn : nat).

(** [this.active] (conversation id to object), the conversation objects,
    the bridges spawned so far, the calls in flight and the effect log. *)
Record sm := mkSm {
  active : gmap string nat;
  convs : gmap nat conv;
  nextObj : nat;
  tasks : gmap nat task;
  log : list logev;
}.

Definition set_phase (s : sm) (i : nat) (t : task) (ph : phase) : gmap nat task :=
  <[i := mkTask (tconv t) ph]> (tasks s).

(** The scheduler's choices: which call makes progress next. *)
Inductive action :=
  | ACall (i : nat)       (* the synchronous prefix of ensureConversation *)
  | ASpawn (i : nat)      (* spawnOperatorPi ... this.active.set *)
  | AChain (i : nat)      (* conversation.queue.then(runTurn) *)
  | AStartTurn (i : nat)  (* the chained runTurn writes its prompt *)
  | AEndTurn (i : nat).   (* the turn's terminal event; its promise settles *)

Definition step (s : sm) (a : action) : sm :=
  match a with
  | ACall i =>
      match tasks s !! i with
      | Some t =>
          match tphase t with
          | PStart =>
              match active s !! tconv t with
              | Some o => mkSm (active s) (convs s) (nextObj s) (set_phase s i t (PAttached o)) (log s)
              | None => mkSm (active s) (convs s) (nextObj s) (set_phase s i t PSpawning) (log s)
              end
          | _ => s
          end
      | None => s
      end
  | ASpawn i =>
      match tasks s !! i with
      | Some t =>
          match tphase t with
          | PSpawning =>
              let o := nextObj s in
              mkSm (<[tconv t := o]> (active s)) (<[o := mkConv o []]> (convs s)) (S o)
                (set_phase s i t (PAttached o)) (log s)
          | _ => s
          end
      | None => s
      end
  | AChain i =>
      match tasks s !! i with
      | Some t =>
          match tphase t with
          | PAttached o =>
              match convs s !! o with
              | Some c =>
                  mkSm (active s) (<[o := mkConv (bridgeOf c) (chain c ++ [i])]> (convs s))
                    (nextObj s) (set_phase s i t (PQueued o)) (log s)
              | None => s
              end
          | _ => s
          end
      | None => s
      end
  | AStartTurn i =>
      match tasks s !! i with
      | Some t =>
          match tphase t with
          | PQueued o =>
              match convs s !! o with
              | Some c =>
                  if bool_decide (head (chain c) = Some i) then
                    mkSm (active s) (convs s) (nextObj s) (set_phase s i t (PRunning o))
                      (log s ++ [Prompt (bridgeOf c) i])
                  else s
              | None => s
              end
          | _ => s
          end
      | None => s
      end
  | AEndTurn i =>
      match tasks s !! i with
      | Some t =>
          match tphase t with
          | PRunning o =>
              match convs s !! o with
              | Some c =>
                  mkSm (active s) (<[o := mkConv (bridgeOf c) (tail (chain c))]> (convs s))
                    (nextObj s) (set_phase s i t PDone) (log s ++ [Terminal i])
              | None => s
              end
          | _ => s
          end
      | None => s
      end
  end.

Definition run (acts : list action) (s : sm) : sm := fold_left step acts s.

(** A fresh [SessionManager] with calls [sendMessage(c_i, ...)] numbered
    in submission order. *)
Definition init_sm (calls : list (nat * string)) : sm :=
  mkSm ∅ ∅ 1 (list_to_map ((fun '(i, c) => (i, mkTask c PStart)) <$> calls)) [].

End TurnQueue.

(* ------------------------------------------------------------------ *)
(** ** Server route [POST /api/resume] *)
(* ------------------------------------------------------------------ *)

Module ResumeRoute.

(** The fields of a [PiProcess] the route reads. *)
Record bridge := mkBridge {
  id : string;
  sessionFile : option string;
  alive : bool;
}.

Definition bridge_id (n : N) : string := "bridge_" +:+ pretty n.

(** Where one request is: [RCheck] before the [activeSessions] loop,
    [RFinding] awaiting [findPiBinary] inside [spawnPi], [RStarting b]
    awaiting the 200 ms startup wait with bridge [b] (process spawned,
    [sessionFile] set, [alive]), and [RDone]. *)
Inductive phase :=
  | RCheck
  | RFinding
  | RStarting (b : string)
  | RDone.

Record request := mkRequest {
  rSessionFile : string;
  rCwd : string;
  rphase : phase;
}.

Inductive response := AlreadyActive (bridgeId : string) | Started (bridgeId : string).

(** [activeSessions] (keys in insertion order, the session reduced to its
    bridge id), all bridges by id, [bridgeIdCounter], the processes
    spawned, the requests in flight and the responses sent. *)
Record server := mkServer {
  activeSessions : list string;
  bridges : gmap string bridge;
  bridgeIdCounter : N;
  spawnedProcs : list string;
  requests : gmap nat request;
  responses : list (nat * response);
}.

(** [for (const [, session] of activeSessions) if (session.bridge.sessionFile === sessionFile) ...] *)
Definition find_bound (s : server) (sf : string) : option string :=
  find (fun bid => match bridges s !! bid with
                   | Some b => bool_decide (sessionFile b = Some sf)
                   | None => false
                   end) (activeSessions s).

Definition set_phase (s : server) (i : nat) (r : request) (ph : phase) : gmap nat request :=
  <[i := mkRequest (rSessionFile r) (rCwd r) ph]> (requests s).

Inductive action :=
  | ACheck (i : nat)     (* the handler up to the first await *)
  | ASpawn (i : nat)     (* findPiBinary returned: id taken, child spawned *)
  | ARegister (i : nat). (* startup wait over: activeBridges.set, registerSession *)

Definition step (s : server) (a : action) : server :=
  match a with
  | ACheck i =>
      match requests s !! i with
      | Some r =>
          match rphase r with
          | RCheck =>
              match find_bound s (rSessionFile r) with
              | Some bid =>
                  mkServer (activeSessions s) (bridges s) (bridgeIdCounter s) (spawnedProcs s)
                    (set_phase s i r RDone) (responses s ++ [(i, AlreadyActive bid)])
              | None =>
                  mkServer (activeSessions s) (bridges s) (bridgeIdCounter s) (spawnedProcs s)
                    (set_phase s i r RFinding) (responses s)
              end
          | _ => s
          end
      | None => s
      end
  | ASpawn i =>
      match requests s !! i with
      | Some r =>
          match rphase r with
          | RFinding =>
              let n := (bridgeIdCounter s + 1)%N in
              let bid := bridge_id n in
              mkServer (activeSessions s)
                (<[bid := mkBridge bid (Some (rSessionFile r)) true]> (bridges s)) n
                (spawnedProcs s ++ [bid]) (set_phase s i r (RStarting bid)) (responses s)
          | _ => s
          end
      | None => s
      end
  | ARegister i =>
      match requests s !! i with
      | Some r =>
          match rphase r with
          | RStarting bid =>
              mkServer (activeSessions s ++ [bid]) (bridges s) (bridgeIdCounter s)
                (spawnedProcs s) (set_phase s i r RDone) (responses s ++ [(i, Started bid)])
          | _ => s
          end
      | None => s
      end
  end.

Definition run (acts : list action) (s : server) : server := fold_left step acts s.

(** A server with no sessions receiving requests [(i, sessionFile, cwd)]. *)
Definition init_server (reqs : list (nat * string * string)) : server :=
  mkServer [] ∅ 0 [] (list_to_map ((fun '(i, sf, cwd) => (i, mkRequest sf cwd RCheck)) <$> reqs)) [].

(** The live bridges bound to [sf]. *)
Definition live_bound (s : server) (sf : string) : list string :=
  (fun kv => kv.1) <$> filter (fun kv => sessionFile kv.2 = Some sf /\ alive kv.2 = true)
                       (map_to_list (bridges s)).

End ResumeRoute.

(* ------------------------------------------------------------------ *)
(** ** Operator sessions: model selection and clearing
       ([getConversationModel], [clearConversation]) *)
(* ------------------------------------------------------------------ *)

Module OperatorModel.
Import Reaper.

(** [a || b] on optional strings (the empty string is falsy). *)
Definition or_opt (a b : option string) : option string :=
  if RigDispatch.truthy a then a else b.

(** [a ?? b] *)
Definition nullish {A} (a b : option A) : option A :=
  match a with Some _ => a | None => b end.

(** [this.config.defaultModel?.provider], [?.modelId], [?.thinkingLevel]. *)
Record defaults := mkDefaults {
  d_provider : option string;
  d_modelId : option string;
  d_thinkingLevel : option string;
}.

(** The [{ provider, modelId, thinkingLevel }] answer. *)
Record choice := mkChoice {
  c_provider : option string;
  c_modelId : option string;
  c_thinkingLevel : option string;
}.

(** [this.active.get(conversationId)] *)
Definition active_get (l : list (string * conversation)) (cid : string) : option conversation :=
  snd <$> find (fun kv => bool_decide (kv.1 = cid)) l.

(** [getConversationModel(conversationId)] *)
Definition getConversationModel (d : defaults) (m : manager) (cid : string) : choice :=
  match active_get (active m) cid with
  | Some a => mkChoice (modelProvider a) (modelId a) (thinkingLevel a)
  | None =>
      let stored := store m !! cid in
      let usingStoredModel :=
        RigDispatch.truthy (stored ≫= r_modelProvider) && RigDispatch.truthy (stored ≫= r_modelId) in
      mkChoice (or_opt (stored ≫= r_modelProvider) (d_provider d))
        (or_opt (stored ≫= r_modelId) (d_modelId d))
        (nullish (stored ≫= r_thinkingLevel)
           (if usingStoredModel then None else d_thinkingLevel d))
  end.

(** [clearConversation(conversationId, { preserveModel })] at time [now]. *)
Definition clearConversation (preserveModel : option bool) (now : Z) (m : manager) (cid : string)
    : manager :=
  let preserve := default true preserveModel in
  let act := active_get (active m) cid in
  let stored := store m !! cid in
  let mp := or_opt (act ≫= modelProvider) (stored ≫= r_modelProvider) in
  let mi := or_opt (act ≫= modelId) (stored ≫= r_modelId) in
  let tl := or_opt (act ≫= thinkingLevel) (stored ≫= r_thinkingLevel) in
  let '(active', killed') :=
    match act with
    | Some a => (filter (fun kv => kv.1 <> cid) (active m), killed m ++ [bridge a])
    | None => (active m, killed m)
    end in
  let store' :=
    if preserve && RigDispatch.truthy mp && RigDispatch.truthy mi
    then <[cid := mkRecord cid None None mp mi tl now]> (store m)
    else delete cid (store m) in
  mkManager active' store' killed'.

End OperatorModel.

(* ------------------------------------------------------------------ *)
(** ** Text helpers: [projectNameFromCwd] ([routes.ts]); [pathBasename],
       [compactToken], [titleFromPrompt] ([rig-tools.ts], [titleFromPrompt]
       also in the operator's session manager) *)
(* ------------------------------------------------------------------ *)

Module RigText.

(** Strings are sequences of Latin-1 code units. *)
Definition slash : Ascii.ascii := Ascii.ascii_of_nat 47.
Definition space : Ascii.ascii := Ascii.ascii_of_nat 32.

(** [s.split(c)] for a one-character separator. *)
Fixpoint split_on (c : Ascii.ascii) (l : list Ascii.ascii) : list (list Ascii.ascii) :=
  match l with
  | [] => [[]]
  | x :: r =>
      if Ascii.eqb x c then [] :: split_on c r
      else match split_on c r with
           | w :: ws => (x :: w) :: ws
           | [] => [[x]]
           end
  end.

(** [cwd.split("/").filter(Boolean)] *)
Definition path_parts (s : string) : list (list Ascii.ascii) :=
  List.filter (fun w => match w with [] => false | _ => true end)
    (split_on slash (String.list_ascii_of_string s)).

(** [parts[parts.length - 1] || "unknown"] *)
Definition projectNameFromCwd (cwd : string) : string :=
  match last (path_parts cwd) with
  | Some ((_ :: _) as w) => String.string_of_list_ascii w
  | _ => "unknown"
  end.

(** [parts[parts.length - 1] || pathname] *)
Definition pathBasename (pathname : string) : string :=
  match last (path_parts pathname) with
  | Some ((_ :: _) as w) => String.string_of_list_ascii w
  | _ => pathname
  end.

(** [[a-z0-9_-]] *)
Definition token_char (c : Ascii.ascii) : bool :=
  let n := Ascii.nat_of_ascii c in
  (((97 <=? n) && (n <=? 122)) || ((48 <=? n) && (n <=? 57)) || (n =? 95) || (n =? 45))%nat.

(** [input.toLowerCase().replace(/[^a-z0-9_-]+/g, "").trim()] *)
Definition compactToken (input : string) : string :=
  String.string_of_list_ascii
    (RigDispatch.trim (List.filter token_char
       (map RigDispatch.to_lower (String.list_ascii_of_string input)))).

(** JavaScript's [\s] (see [RigDispatch.is_space]). *)
Definition js_space (c : Ascii.ascii) : bool := RigDispatch.is_space c.

Fixpoint drop_js_ws (l : list Ascii.ascii) : list Ascii.ascii :=
  match l with
  | c :: r => if js_space c then drop_js_ws r else l
  | [] => []
  end.

(** [String.prototype.trim] *)
Definition js_trim (l : list Ascii.ascii) : list Ascii.ascii :=
  rev (drop_js_ws (rev (drop_js_ws l))).

(** [s.split(/\s+/)]: a run of white space separates two parts. *)
Fixpoint split_ws (l : list Ascii.ascii) : list (list Ascii.ascii) :=
  match l with
  | [] => [[]]
  | c :: r =>
      if js_space c then
        match r with
        | d :: _ => if js_space d then split_ws r else [] :: split_ws r
        | [] => [] :: split_ws r
        end
      else match split_ws r with
           | w :: ws => (c :: w) :: ws
           | [] => [[c]]
           end
  end.

(** [parts.join(sep)] *)
Fixpoint join_with (sep : Ascii.ascii) (ws : list (list Ascii.ascii)) : list Ascii.ascii :=
  match ws with
  | [] => []
  | [w] => w
  | w :: ws' => w ++ sep :: join_with sep ws'
  end.

Definition is_crlf (c : Ascii.ascii) : bool :=
  ((Ascii.nat_of_ascii c =? 13) || (Ascii.nat_of_ascii c =? 10))%nat.

(** [.replace(/[\r\n]+/g, " ")]; [in_run] is set inside a run. *)
Fixpoint replace_crlf (in_run : bool) (l : list Ascii.ascii) : list Ascii.ascii :=
  match l with
  | [] => []
  | c :: r =>
      if is_crlf c then (if in_run then replace_crlf true r else space :: replace_crlf true r)
      else c :: replace_crlf false r
  end.

(** [prompt.trim().split(/\s+/).slice(0, 7).join(" ").replace(/[\r\n]+/g, " ")] *)
Definition titleFromPrompt (prompt : string) : string :=
  String.string_of_list_ascii
    (replace_crlf false
       (join_with space (firstn 7 (split_ws (js_trim (String.list_ascii_of_string prompt)))))).

End RigText.

(* ------------------------------------------------------------------ *)
(** ** Operator tool helper [resolveDispatchCwd] ([rig-tools.ts]) *)
(* ------------------------------------------------------------------ *)

Module DispatchCwd.
Import RigText.

(** An entry of [data.projects] from [GET /api/projects], with its [path]
    and [name] when they are strings. *)
Record rproject := mkProject {
  path : option string;
  name : option string;
}.

Inductive resolution :=
  | ROk (cwd : string)
  | RErr (error : string) (projects : list rproject).

Definition GENERIC_FOLDER_HINTS : list string :=
  ["a"; "an"; "the"; "this"; "that"; "here"; "current"; "my"; "your"; "default"; "project";
   "folder"; "repo"; "directory"].

Definition generic (s : string) : bool := existsb (String.eqb s) GENERIC_FOLDER_HINTS.

(** [s.includes(t)] *)
Fixpoint includes (s t : string) : bool :=
  String.prefix t s || match s with EmptyString => false | String _ s' => includes s' t end.

Section Resolve.

(** The first capture group of the first match of the two regular
    expressions of [extractExplicitFolderTarget] in the message
    ([message.match(rx)?.[1]]), whatever the regular expression engine
    returns. *)
Variable rx : string -> option string.
Variable rx2 : string -> option string.

(** [const token = compactToken(match[1]); if (token && !GENERIC_FOLDER_HINTS.has(token))] *)
Definition usable_token (m : option string) : option string :=
  match m with
  | Some g =>
      if RigDispatch.truthy (Some g) then
        let token := compactToken g in
        if RigDispatch.truthy (Some token) && negb (generic token) then Some token else None
      else None
  | None => None
  end.

Definition extractExplicitFolderTarget (message : string) (cwdHint : option string) : option string :=
  match usable_token (rx message) with
  | Some t => Some t
  | None =>
      match usable_token (rx2 message) with
      | Some t => Some t
      | None =>
          match cwdHint with
          | Some h =>
              if RigDispatch.truthy (Some h) && negb (String.prefix "/" h) then
                let hint := compactToken h in
                if RigDispatch.truthy (Some hint) && (3 <=? String.length hint)%nat
                   && negb (generic hint)
                then Some hint else None
              else None
          | None => None
          end
      end
  end.

(** [p?.path && p?.name] *)
Definition valid_project (p : rproject) : bool :=
  RigDispatch.truthy (path p) && RigDispatch.truthy (name p).

Definition base_of (p : rproject) : string := compactToken (pathBasename (default "" (path p))).
Definition name_of (p : rproject) : string := compactToken (default "" (name p)).

(** [resolveDispatchCwd(message, cwdHint)] once [getJson("/api/projects")]
    returned the entries [raw]. *)
Definition resolveDispatchCwd (raw : list rproject) (message : string) (cwdHint : option string)
    : resolution :=
  let projects := List.filter valid_project raw in
  match projects with
  | [] => RErr "No projects are registered in Rig yet." []
  | _ =>
      let trimmedHint :=
        String.string_of_list_ascii (js_trim (String.list_ascii_of_string (RigDispatch.or_empty cwdHint))) in
      match extractExplicitFolderTarget message cwdHint with
      | Some explicitTarget =>
          let exact := List.filter (fun p => String.eqb (base_of p) explicitTarget
                                             || String.eqb (name_of p) explicitTarget) projects in
          match exact with
          | [p] => ROk (default "" (path p))
          | _ :: _ :: _ =>
              RErr ("Multiple folders match '" +:+ explicitTarget +:+ "'. Pick one to continue.")
                (firstn 12 exact)
          | [] =>
              RErr ("Couldn't find folder '" +:+ explicitTarget +:+ "'. Pick a project to continue.")
                (firstn 12 (List.filter (fun p => includes (base_of p) explicitTarget
                                                  || includes (name_of p) explicitTarget) projects))
          end
      | None =>
          if String.prefix "/" trimmedHint then
            match List.find (fun p => bool_decide (path p = Some trimmedHint)) projects with
            | Some direct => ROk (default "" (path direct))
            | None =>
                RErr ("Project path '" +:+ trimmedHint +:+ "' is not registered. Pick one to continue.")
                  (firstn 12 projects)
            end
          else RErr "Project not specified. Pick one to continue." (firstn 12 projects)
      end
  end.

End Resolve.

End DispatchCwd.

(* ------------------------------------------------------------------ *)
(** ** The session WebSocket's ["message"] handler ([routes.ts]) *)
(* ------------------------------------------------------------------ *)

Module WsMessage.

(** A value from [JSON.parse]. An object is the list of its (key, value)
    entries in the order they are written; reading a key gives the last
    value written for it (as [JSON.parse] and object spread do). Numbers
    are only tested for truthiness here. *)
#[warnings="-register-all"] Inductive jval :=
  | JNull
  | JBool (b : bool)
  | JNum (n : Z)
  | JStr (s : string)
  | JArr (l : list jval)
  | JObj (kvs : list (string * jval)).

Fixpoint lookup_last (kvs : list (string * jval)) (k : string) : option jval :=
  match kvs with
  | [] => None
  | (k', v) :: r =>
      match lookup_last r k with
      | Some x => Some x
      | None => if String.eqb k' k then Some v else None
      end
  end.

(** [v.k] ([None] for [undefined]); arrays, strings and the other
    primitives have none of the keys read here. *)
Definition get (v : jval) (k : string) : option jval :=
  match v with JObj kvs => lookup_last kvs k | _ => None end.

(** [!!v && typeof v === "object"] *)
Definition is_object (v : jval) : bool :=
  match v with JObj _ | JArr _ => true | _ => false end.

(** The own enumerable properties copied by [...v]. *)
Definition spread_src (v : jval) : list (string * jval) :=
  match v with
  | JObj kvs => kvs
  | JArr l => zip ((fun i => pretty (N.of_nat i)) <$> seq 0 (length l)) l
  | _ => []
  end.

Definition is_string (v : option jval) : bool :=
  match v with Some (JStr _) => true | _ => false end.

(** [v === s] for a string literal [s]. *)
Definition str_eq (v : option jval) (s : string) : bool :=
  match v with Some (JStr s') => String.eqb s' s | _ => false end.

(** What the handler does with one message: answer with an error
    [{type: "response", requestId, error}], pass [msg.command] to
    [sendCommand], or [sendRaw] a payload to the pi process. *)
Inductive ws_out :=
  | WsError (requestId : option jval) (message : string)
  | Forward (requestId : option jval) (command : jval)
  | SendRaw (payload : jval).

(** The [extension_ui_response] payload. *)
Definition ui_payload (data : option jval) : option jval :=
  match data with
  | Some d =>
      if is_object d then
        if str_eq (get d "type") "extension_ui_response" then Some d
        else Some (JObj (("type", JStr "extension_ui_response") :: spread_src d))
      else None
  | None => None
  end.

(** [socket.on("message", ...)]; [None] is a message [JSON.parse] rejects. *)
Definition handle (raw : option jval) : ws_out :=
  match raw with
  | None => WsError None "Failed to parse WS message"
  | Some msg =>
      if negb (is_object msg) then WsError None "Malformed WS message"
      else
        match get msg "type" with
        | Some (JStr ty) =>
            if String.eqb ty "command" then
              match get msg "command" with
              | Some c =>
                  if is_object c && is_string (get c "type") then Forward (get msg "requestId") c
                  else WsError (get msg "requestId") "Invalid command payload"
              | None => WsError (get msg "requestId") "Invalid command payload"
              end
            else if String.eqb ty "extension_ui_response" then
              match ui_payload (get msg "data") with
              | Some p =>
                  if is_string (get p "id") then SendRaw p
                  else WsError None "Invalid extension_ui_response payload"
              | None => WsError None "Invalid extension_ui_response payload"
              end
            else WsError (get msg "requestId") ("Unknown WS message type: " +:+ ty)
        | _ => WsError None "Malformed WS message"
        end
  end.

End WsMessage.

(* ------------------------------------------------------------------ *)
(** ** routes.ts: [resolveThinkingLevelsForModel] *)
(* ------------------------------------------------------------------ *)

(** The pi process is an oracle: the answer to [set_model], to [get_state]
    and to the [i]-th [cycle_thinking_level]. [None] is a rejected
    [sendCommand] (timeout or exit), which propagates out of the function;
    the [set_thinking_level] restore is [.catch]ed and has no effect on the
    result. A result of [None] is the function rejecting. *)
Module ThinkingLevels.

Definition THINKING_LEVEL_ORDER : list string :=
  ["off"; "minimal"; "low"; "medium"; "high"; "xhigh"].

Definition FALLBACK : list string := ["off"; "minimal"; "low"; "medium"; "high"].

Record state_resp := mkState {
  st_success : bool;
  st_reasoning : bool;
  st_thinkingLevel : option string
}.

(** [cycleResp.success] and [cycleResp.data.level]. *)
Definition cycle_resp := (bool * option string)%type.

Definition truthy_str (o : option string) : option string :=
  match o with Some s => if String.eqb s "" then None else Some s | None => None end.

Section Resolve.
Variable cyc : nat -> option cycle_resp.

(** The [for] loop: [fuel] iterations left, [i] commands sent so far. The
    result is the [seen] set and the number of cycle commands sent. *)
Fixpoint cycle_loop (fuel i : nat) (seen : list string) : option (list string * nat) :=
  match fuel with
  | O => Some (seen, i)
  | S fuel' =>
      match cyc i with
      | None => None
      | Some (success, level) =>
          if negb success then Some (seen, S i) else
          match truthy_str level with
          | None => Some (seen, S i)
          | Some l =>
              if bool_decide (l ∈ seen) then Some (seen, S i)
              else cycle_loop fuel' (S i) (l :: seen)
          end
      end
  end.

Definition resolveThinkingLevelsForModel (setResp : option bool) (stateResp : option state_resp)
    : option (list string * nat) :=
  match setResp with
  | None | Some false => None
  | Some true =>
      match stateResp with
      | None => None
      | Some st =>
          if negb (st_success st) then None else
          let startLevel := default "off" (truthy_str (st_thinkingLevel st)) in
          if negb (st_reasoning st) then Some (["off"], O) else
          match cycle_loop (length THINKING_LEVEL_ORDER + 2) O [startLevel] with
          | None => None
          | Some (seen, sent) =>
              let levels := List.filter (fun l => bool_decide (l ∈ seen)) THINKING_LEVEL_ORDER in
              Some (match levels with [] => FALLBACK | _ => levels end, sent)
          end
      end
  end.
End Resolve.

End ThinkingLevels.

(* ================================================================== *)
(** * Proofs *)
(* ================================================================== *)

(* ------------------------------------------------------------------ *)
(** ** Channel: request correlation, exit, late responses *)
(* ------------------------------------------------------------------ *)

Module PiBridgeProofs.
Import PiBridge.

Example req_id_1 : req_id 1 = "req_1".
Proof. reflexivity. Qed.

Example two_commands_answered_out_of_order :
  settled (run [ASend "get_state"; ASend "set_model"; ALine (resp "req_2" 7);
                ALine (resp "req_1" 5)] init_chan)
  = {[0 := Resolved (mkJson (Some "response") (Some "req_1") 5);
      1 := Resolved (mkJson (Some "response") (Some "req_2") 7)]}.
Proof. vm_compute. reflexivity. Qed.

Lemma req_id_inj (n m : N) : req_id n = req_id m -> n = m.
Proof. unfold req_id. intros H. apply (inj (String.append "req_")) in H. by apply (inj pretty). Qed.

Lemma settle_fresh h o (m : gmap nat outcome) : m !! h = None -> settle h o m !! h = Some o.
Proof. intros H. unfold settle. rewrite H. by rewrite lookup_insert_eq. Qed.

Lemma settle_ne h h' o (m : gmap nat outcome) : h <> h' -> settle h o m !! h' = m !! h'.
Proof. intros H. unfold settle. destruct (m !! h); [done|]. by rewrite lookup_insert_ne. Qed.

Lemma settle_old h h' o (m : gmap nat outcome) o' : m !! h' = Some o' -> settle h o m !! h' = Some o'.
Proof.
  intros H. destruct (decide (h = h')) as [->|]; [|by rewrite settle_ne].
  unfold settle. by rewrite H.
Qed.

Lemma settle_cases h h' o (m : gmap nat outcome) o' :
  settle h o m !! h' = Some o' -> m !! h' = Some o' \/ (h = h' /\ m !! h' = None /\ o = o').
Proof.
  unfold settle. destruct (m !! h) eqn:E; [auto|].
  destruct (decide (h = h')) as [->|Hne].
  - rewrite lookup_insert_eq. intros [= ->]. auto.
  - rewrite lookup_insert_ne by done. auto.
Qed.

(** The [reject_all] loop, entry by entry. *)
Lemma reject_all_miss err (l : list (string * nat)) acc h :
  h ∉ l.*2 -> (reject_all err l acc).2 !! h = acc.2 !! h.
Proof.
  unfold reject_all. induction l as [|[id h'] l IH]; cbn [foldr]; [done|].
  intros Hl. simpl in Hl |- *. rewrite elem_of_cons in Hl.
  rewrite settle_ne by (intros ->; apply Hl; auto). apply IH. intros ?; apply Hl; auto.
Qed.

Lemma reject_all_hit err (l : list (string * nat)) acc h :
  h ∈ l.*2 -> acc.2 !! h = None -> (reject_all err l acc).2 !! h = Some (Rejected err).
Proof.
  intros Hin Hacc. revert Hin. induction l as [|[id h'] l IH]; intros Hin.
  - by apply not_elem_of_nil in Hin.
  - unfold reject_all in *. cbn [foldr] in *. simpl in Hin |- *.
    apply elem_of_cons in Hin.
    destruct (decide (h' = h)) as [->|Hne].
    + destruct (decide (h ∈ l.*2)) as [Hl|Hl].
      * by rewrite (settle_old _ _ _ _ _ (IH Hl)).
      * rewrite settle_fresh; [done|]. fold (reject_all err l acc).
        by rewrite reject_all_miss.
    + rewrite settle_ne by done. apply IH. destruct Hin; [congruence|done].
Qed.

Lemma reject_all_cases err (l : list (string * nat)) acc h o :
  (reject_all err l acc).2 !! h = Some o -> acc.2 !! h = Some o \/ o = Rejected err.
Proof.
  unfold reject_all. induction l as [|[id h'] l IH]; cbn [foldr]; [auto|].
  simpl. intros H. apply settle_cases in H as [H|(_ & _ & <-)]; auto.
Qed.

Lemma reject_all_timers err (l : list (string * nat)) acc h x :
  (reject_all err l acc).1 !! h = Some x -> acc.1 !! h = Some x.
Proof.
  unfold reject_all. induction l as [|[id h'] l IH]; cbn [foldr]; [auto|].
  simpl. intros H. destruct (decide (h' = h)) as [->|Hne].
  - by rewrite lookup_delete_eq in H.
  - rewrite lookup_delete_ne in H by done. auto.
Qed.

Lemma chan_inv_init : chan_inv init_chan.
Proof. split; simpl; intros *; rewrite ?lookup_empty; done. Qed.

Lemma chan_inv_send s c : chan_inv s -> chan_inv (sendCommand s c).
Proof.
  intros [Hp Ha Hinj Hs Hr Ht]. unfold sendCommand.
  destruct (alive s); simpl.
  - set (h := issued s). set (n := (nextRequestId s + 1)%N).
    assert (Hfresh : assigned s !! h = None).
    { destruct (assigned s !! h) eqn:E; [|done]. apply Ha in E. lia. }
    assert (Hsfresh : settled s !! h = None).
    { destruct (settled s !! h) eqn:E; [|done]. apply Hs in E. lia. }
    assert (Hnew : forall h' id, assigned s !! h' = Some id -> id <> req_id n).
    { intros h' id E ->. apply Ha in E as [_ [m [Hm Hle]]].
      apply req_id_inj in Hm. subst n. lia. }
    split; simpl.
    + intros id h'. rewrite lookup_insert. case_decide as Hid; [subst id|].
      * intros [= <-]. by rewrite lookup_insert_eq.
      * intros E. destruct (Hp _ _ E) as [E1 E2].
        rewrite lookup_insert_ne; [done|]. intros <-. by rewrite Hfresh in E1.
    + intros h' id. rewrite lookup_insert. case_decide as Hh; [subst h'|].
      * intros [= <-]. split; [lia|]. by exists n.
      * intros E. destruct (Ha _ _ E) as [Hlt [m [-> Hle]]].
        split; [lia|]. exists m. split; [done|]. subst n; lia.
    + intros h1 h2 id. rewrite !lookup_insert.
      case_decide as H1; case_decide as H2; subst; try done.
      * intros [= <-] E. exfalso. by apply (Hnew _ _ E).
      * intros E [= <-]. exfalso. by apply (Hnew _ _ E).
      * apply Hinj.
    + intros h' o E. apply Hs in E. lia.
    + intros h' d E. destruct (Hr _ _ E) as [id [E1 E2]]. exists id.
      split; [|done]. rewrite lookup_insert_ne; [done|]. intros <-. by rewrite Hfresh in E1.
    + intros h' id c'. rewrite !lookup_insert. case_decide; [subst h'; congruence|].
      apply Ht.
  - split; simpl; try done.
    + intros id h E. destruct (Hp _ _ E) as [E1 E2]. split; [done|].
      rewrite settle_ne; [done|]. intros <-. apply Ha in E1. lia.
    + intros h id E. apply Ha in E as [? ?]. split; [lia|done].
    + intros h o E. apply settle_cases in E as [E|(<- & _ & _)]; [apply Hs in E|]; lia.
    + intros h d E. apply settle_cases in E as [E|(_ & _ & ?)]; [by apply Hr|done].
Qed.

Lemma response_match_spec s d id h :
  response_match s d = Some (id, h) ->
  jtype d = Some "response" /\ jid d = Some id /\ pendingRequests s !! id = Some h.
Proof.
  unfold response_match. destruct (jid d) as [i|]; [|done].
  destruct (bool_decide _ && id_truthy _) eqn:B; [|done].
  apply andb_prop in B as [B _]. apply bool_decide_eq_true in B.
  destruct (pendingRequests s !! i) eqn:E; [|done]. intros [= <- <-]. auto.
Qed.

Lemma chan_inv_line s l : chan_inv s -> chan_inv (onLine s l).
Proof.
  intros Hi. destruct Hi as [Hp Ha Hinj Hs Hr Ht]. destruct l as [d|]; simpl;
    [|by split].
  destruct (response_match s d) as [[id h]|] eqn:M; [|by split].
  apply response_match_spec in M as (_ & Hjid & Hph).
  destruct (Hp _ _ Hph) as [Hah Hsh].
  split; simpl; try done.
  - intros id' h'. rewrite lookup_delete. case_decide; [done|].
    intros E. destruct (Hp _ _ E) as [E1 E2]. split; [done|].
    rewrite settle_ne; [done|]. intros <-. congruence.
  - intros h' o E. apply settle_cases in E as [E|(<- & _ & _)]; [by apply Hs in E|].
    by apply Ha in Hah as [? _].
  - intros h' d' E. apply settle_cases in E as [E|(<- & _ & Hd)]; [by apply Hr|].
    injection Hd as <-. by exists id.
  - intros h' id' c. rewrite lookup_delete. case_decide; [done|]. apply Ht.
Qed.

Lemma chan_inv_timer s h : chan_inv s -> chan_inv (onTimer s h).
Proof.
  intros Hi. unfold onTimer. destruct (timers s !! h) as [[id c]|] eqn:T; [|done].
  destruct Hi as [Hp Ha Hinj Hs Hr Ht]. pose proof (Ht _ _ _ T) as Hah.
  split; simpl; try done.
  - intros id' h'. rewrite lookup_delete. case_decide; [done|].
    intros E. destruct (Hp _ _ E) as [E1 E2]. split; [done|].
    rewrite settle_ne; [done|]. intros <-. congruence.
  - intros h' o E. apply settle_cases in E as [E|(<- & _ & _)]; [by apply Hs in E|].
    by apply Ha in Hah as [? _].
  - intros h' d' E. apply settle_cases in E as [E|(_ & _ & ?)]; [by apply Hr|done].
  - intros h' id' c'. rewrite lookup_delete. case_decide; [done|]. apply Ht.
Qed.

Lemma chan_inv_exit s code sig : chan_inv s -> chan_inv (onExit s code sig).
Proof.
  intros Hi. destruct Hi as [Hp Ha Hinj Hs Hr Ht]. unfold onExit.
  split; simpl; try done.
  - intros h o E.
    destruct (decide (h ∈ (map_to_list (pendingRequests s)).*2)) as [Hin|Hin].
    + (* a promise rejected by the loop was pending *)
      apply list_elem_of_fmap in Hin as [[id h'] [-> Hin]].
      apply elem_of_map_to_list in Hin. simpl.
      destruct (Hp _ _ Hin) as [E1 _]. by apply Ha in E1 as [? _].
    + rewrite reject_all_miss in E by done. simpl in E. by apply Hs in E.
  - intros h d E. apply reject_all_cases in E as [E|?]; [by apply Hr|done].
  - intros h id c E. apply reject_all_timers in E. by apply (Ht _ _ c).
Qed.

Lemma chan_inv_step s a : chan_inv s -> chan_inv (step s a).
Proof.
  destruct a; simpl;
    eauto using chan_inv_send, chan_inv_line, chan_inv_timer, chan_inv_exit.
Qed.

Lemma chan_inv_run acts s : chan_inv s -> chan_inv (run acts s).
Proof.
  revert s. induction acts as [|a acts IH]; intros s H; simpl; [done|].
  apply IH. by apply chan_inv_step.
Qed.

Lemma chan_inv_reachable acts : chan_inv (run acts init_chan).
Proof. apply chan_inv_run, chan_inv_init. Qed.

Lemma pending_not_after_timeout s h r c :
  chan_inv s -> settled s !! h = Some (Rejected (ErrTimeout c)) ->
  assigned s !! h = Some r -> pendingRequests s !! r = None.
Proof.
  intros Hi Hs Ha. destruct (pendingRequests s !! r) as [h'|] eqn:E; [|done].
  destruct (inv_pending _ Hi _ _ E) as [Ha' Hs'].
  rewrite (inv_assigned_inj _ Hi _ _ _ Ha' Ha) in Hs'. congruence.
Qed.

(** C1 (request correlation).  On one channel, after any interleaving of
    [sendCommand] calls, stdout lines, timeouts and exit, a promise
    returned by [sendCommand] that has resolved holds a response line whose
    [id] is the request id written on that command's line, and no other
    [sendCommand] call was given that id. *)
Theorem sendCommand_resolves_with_own_id (acts : list action) (h : nat) (d : json) :
  settled (run acts init_chan) !! h = Some (Resolved d) ->
  exists id, assigned (run acts init_chan) !! h = Some id /\ jid d = Some id /\
    (forall h', assigned (run acts init_chan) !! h' = Some id -> h' = h).
Proof.
  intros Hd. pose proof (chan_inv_reachable acts) as Hi.
  destruct (inv_resolved _ Hi _ _ Hd) as [id [Ha Hj]].
  exists id. split; [done|]. split; [done|].
  intros h' Ha'. exact (inv_assigned_inj _ Hi _ _ _ Ha' Ha).
Qed.

Lemma sendCommand_resolves_with_own_id_witness :
  settled (run [ASend "get_state"; ASend "set_model"; ALine (resp "req_2" 7);
                ALine (resp "req_1" 5)] init_chan) !! 0
    = Some (Resolved (mkJson (Some "response") (Some "req_1") 5)) /\
  exists id, assigned (run [ASend "get_state"; ASend "set_model"; ALine (resp "req_2" 7);
                ALine (resp "req_1" 5)] init_chan) !! 0 = Some id /\
    jid (mkJson (Some "response") (Some "req_1") 5) = Some id /\
    (forall h', assigned (run [ASend "get_state"; ASend "set_model"; ALine (resp "req_2" 7);
                ALine (resp "req_1" 5)] init_chan) !! h' = Some id -> h' = 0).
Proof.
  split; [vm_compute; reflexivity|].
  apply sendCommand_resolves_with_own_id. vm_compute. reflexivity.
Defined.

(** C2 (exit fails all pending).  In any reachable channel state, the exit
    handler rejects every pending request with the one error
    [ErrExited code signal] (the message "Pi process exited (code=..,
    signal=..)") and leaves the pending map empty, in the same handler run. *)
Theorem exit_rejects_all_pending (acts : list action) (code signal : option Z) :
  pendingRequests (onExit (run acts init_chan) code signal) = ∅ /\
  forall id h, pendingRequests (run acts init_chan) !! id = Some h ->
    settled (onExit (run acts init_chan) code signal) !! h
      = Some (Rejected (ErrExited code signal)).
Proof.
  split; [done|]. intros id h E.
  pose proof (chan_inv_reachable acts) as Hi.
  destruct (inv_pending _ Hi _ _ E) as [_ Hs].
  unfold onExit. simpl. apply reject_all_hit; [|done].
  apply list_elem_of_fmap. exists (id, h). split; [done|].
  by apply elem_of_map_to_list.
Qed.

Lemma exit_rejects_all_pending_witness :
  pendingRequests (run [ASend "get_state"; ASend "set_model"] init_chan) !! "req_2" = Some 1 /\
  settled (onExit (run [ASend "get_state"; ASend "set_model"] init_chan) (Some 1%Z) None) !! 1
    = Some (Rejected (ErrExited (Some 1%Z) None)).
Proof.
  split; [vm_compute; reflexivity|].
  apply (proj2 (exit_rejects_all_pending [ASend "get_state"; ASend "set_model"] (Some 1%Z) None)
           "req_2" 1).
  vm_compute. reflexivity.
Defined.

(** C10 (late response after timeout).  Once the promise of a command with
    request id [r] has been rejected by its timeout, [r] is no longer in the
    pending map, and a response line bearing [r] that arrives afterwards is
    emitted on the event stream, settling and removing nothing. *)
Theorem late_response_becomes_event (acts : list action) (h : nat) (r c : string) (b : nat) :
  settled (run acts init_chan) !! h = Some (Rejected (ErrTimeout c)) ->
  assigned (run acts init_chan) !! h = Some r ->
  pendingRequests (run acts init_chan) !! r = None /\
  events (onLine (run acts init_chan) (resp r b))
    = events (run acts init_chan) ++ [mkJson (Some "response") (Some r) b] /\
  settled (onLine (run acts init_chan) (resp r b)) = settled (run acts init_chan) /\
  pendingRequests (onLine (run acts init_chan) (resp r b))
    = pendingRequests (run acts init_chan).
Proof.
  intros Hs Ha. pose proof (chan_inv_reachable acts) as Hi.
  pose proof (pending_not_after_timeout _ _ _ _ Hi Hs Ha) as Hp.
  split; [done|]. unfold onLine, resp.
  assert (M : response_match (run acts init_chan) (mkJson (Some "response") (Some r) b) = None).
  { unfold response_match. simpl. rewrite Hp. by repeat case_match. }
  rewrite M. simpl. auto.
Qed.

Lemma late_response_becomes_event_witness :
  settled (run [ASend "get_state"; ATimer 0] init_chan) !! 0
    = Some (Rejected (ErrTimeout "get_state")) /\
  assigned (run [ASend "get_state"; ATimer 0] init_chan) !! 0 = Some "req_1" /\
  pendingRequests (run [ASend "get_state"; ATimer 0] init_chan) !! "req_1" = None /\
  events (onLine (run [ASend "get_state"; ATimer 0] init_chan) (resp "req_1" 3))
    = events (run [ASend "get_state"; ATimer 0] init_chan)
        ++ [mkJson (Some "response") (Some "req_1") 3] /\
  settled (onLine (run [ASend "get_state"; ATimer 0] init_chan) (resp "req_1" 3))
    = settled (run [ASend "get_state"; ATimer 0] init_chan) /\
  pendingRequests (onLine (run [ASend "get_state"; ATimer 0] init_chan) (resp "req_1" 3))
    = pendingRequests (run [ASend "get_state"; ATimer 0] init_chan).
Proof.
  split; [vm_compute; reflexivity|]. split; [vm_compute; reflexivity|].
  apply (late_response_becomes_event [ASend "get_state"; ATimer 0] 0 "req_1" "get_state" 3);
    vm_compute; reflexivity.
Defined.

End PiBridgeProofs.

(* ------------------------------------------------------------------ *)
(** ** Event buffer and fan-out: replay once, then live only *)
(* ------------------------------------------------------------------ *)

Module EventFanoutProofs.
Import EventFanout.

(** Two events before the first socket, one after: socket 0 gets the
    backlog then the live event; socket 1, attaching later, gets only what
    follows its attach. *)
Example fanout_trace :
  let s := run (fun fs _ => fs) [AEvent 10; AEvent 11; AConnect; AEvent 12; AConnect; AEvent 13]
             (init_fan) in
  received s 0 = [MEvent 0 10; MEvent 1 11; MEvent 2 12; MEvent 3 13] /\
  received s 1 = [MEvent 3 13].
Proof. vm_compute. split; reflexivity. Qed.

(** The first socket leaves, events arrive, a new socket attaches: the
    events pushed meanwhile went to the handler's original array, not to
    [session.eventBuffer], and are not replayed. *)
Example fanout_after_disconnect :
  let s := run (fun fs _ => fs) [AConnect; AClose 0; AEvent 20; AConnect; AEvent 21] init_fan in
  received s 1 = [MEvent 1 21] /\ heap s !! 0 = Some [(0, 20)].
Proof. vm_compute. split; reflexivity. Qed.

Lemma send_lookup k m (ib : gmap nat (list msg)) k' :
  default [] (send k m ib !! k') =
    if decide (k = k') then default [] (ib !! k) ++ [m] else default [] (ib !! k').
Proof.
  unfold send. case_decide as E; [subst; by rewrite lookup_insert_eq|].
  by rewrite lookup_insert_ne.
Qed.

Lemma broadcast_lookup ks m (ib : gmap nat (list msg)) k :
  exists extra, default [] (broadcast ks m ib !! k) = default [] (ib !! k) ++ extra /\
    Forall (fun m' => m' = m) extra.
Proof.
  unfold broadcast. revert ib. induction ks as [|k1 ks IH]; intros ib; simpl.
  - exists []. by rewrite app_nil_r.
  - destruct (IH (send k1 m ib)) as [extra [-> Hx]].
    rewrite send_lookup. case_decide.
    + subst. exists ([m] ++ extra). rewrite app_assoc. split; [done|]. by constructor.
    + by exists extra.
Qed.

Lemma replay_lookup k (l : list (nat * nat)) (ib : gmap nat (list msg)) k' :
  default [] (fold_left (fun acc '(i, e) => send k (MEvent i e) acc) l ib !! k') =
    default [] (ib !! k') ++ (if decide (k = k') then as_msgs l else []).
Proof.
  revert ib. induction l as [|[i e] l IH]; intros ib; simpl.
  - case_decide; by rewrite app_nil_r.
  - rewrite IH, send_lookup. destruct (decide (k = k')); [|done].
    subst. rewrite <-app_assoc. reflexivity.
Qed.

Lemma after_attach_mono n n' m : n <= n' -> after_attach n' m -> after_attach n m.
Proof. destruct m; simpl; lia. Qed.

Lemma step_mono pe s a : evCount s <= evCount (step pe s a) /\ nextSock s <= nextSock (step pe s a).
Proof.
  destruct a; simpl.
  - unfold onEvent. destruct (wsClients s); simpl; lia.
  - simpl. lia.
  - simpl. lia.
  - unfold onStateReply. case_bool_decide; simpl; lia.
  - simpl. lia.
Qed.

(** What one step adds to the inbox of an attached socket [k]. *)
Lemma step_received pe s a k : k < nextSock s ->
  exists post, received (step pe s a) k = received s k ++ post /\
    Forall (after_attach (evCount s)) post.
Proof.
  intros Hk. unfold received. destruct a as [e| |k'|k' d|]; cbn [step].
  - unfold onEvent. destruct (wsClients s) as [|k1 ks] eqn:W; cbn [inbox].
    + exists []. by rewrite app_nil_r.
    + destruct (broadcast_lookup (k1 :: ks) (MEvent (evCount s) e) (inbox s) k) as [x [-> Hx]].
      exists x. split; [done|]. eapply Forall_impl; [exact Hx|]. intros ? ->. simpl. lia.
  - unfold onConnect. cbn [inbox]. rewrite replay_lookup.
    rewrite decide_False by lia.
    destruct (files s); [|rewrite send_lookup, decide_False by lia];
      exists []; by rewrite !app_nil_r.
  - exists []. by rewrite app_nil_r.
  - unfold onStateReply. case_bool_decide; cbn [inbox].
    + rewrite send_lookup. case_decide.
      * subst. exists [MState d]. split; [done|]. by repeat constructor.
      * exists []. by rewrite app_nil_r.
    + exists []. by rewrite app_nil_r.
  - cbn [onBridgeExit inbox].
    destruct (broadcast_lookup (wsClients s) MExit (inbox s) k) as [x [-> Hx]].
    exists x. split; [done|]. eapply Forall_impl; [exact Hx|]. by intros ? ->.
Qed.

(** After socket [k] has attached, whatever happens only appends to its
    inbox messages about later happenings. *)
Lemma run_received pe acts s k : k < nextSock s ->
  exists post, received (run pe acts s) k = received s k ++ post /\
    Forall (after_attach (evCount s)) post.
Proof.
  revert s. induction acts as [|a acts IH]; intros s Hk; simpl.
  - exists []. by rewrite app_nil_r.
  - destruct (step_received pe s a k Hk) as [p1 [E1 F1]].
    destruct (step_mono pe s a) as [Hc Hn].
    destruct (IH (step pe s a)) as [p2 [E2 F2]]; [lia|].
    exists (p1 ++ p2). rewrite E2, E1, app_assoc. split; [done|].
    apply Forall_app. split; [done|].
    eapply Forall_impl; [exact F2|]. intros m. by apply after_attach_mono.
Qed.

(** Events arriving with no socket attached and [session.eventBuffer] still
    the handler's array all land in that array, in order. *)
Lemma run_events_buffered pe es s :
  wsClients s = [] -> sessionBuf s = closureBuf s ->
  wsClients (run pe (map AEvent es) s) = [] /\
  inbox (run pe (map AEvent es) s) = inbox s /\
  nextSock (run pe (map AEvent es) s) = nextSock s /\
  closureBuf (run pe (map AEvent es) s) = closureBuf s /\
  sessionBuf (run pe (map AEvent es) s) = sessionBuf s /\
  evCount (run pe (map AEvent es) s) = evCount s + length es /\
  nextArr (run pe (map AEvent es) s) = nextArr s /\
  default [] (heap (run pe (map AEvent es) s) !! closureBuf s)
    = default [] (heap s !! closureBuf s) ++ arrivals (evCount s) es.
Proof.
  revert s. induction es as [|e es IH]; intros s Hw Hb.
  - cbn. rewrite app_nil_r. repeat split; try done; lia.
  - change (run pe (map AEvent (e :: es)) s) with (run pe (map AEvent es) (onEvent pe s e)).
    assert (Hs : onEvent pe s e =
      mkFan (<[closureBuf s := default [] (heap s !! closureBuf s) ++ [(evCount s, e)]]> (heap s))
        (closureBuf s) (sessionBuf s) (nextArr s) [] (inbox s) (nextSock s) (S (evCount s))
        (pe (files s) e)).
    { unfold onEvent. by rewrite Hw. }
    rewrite Hs. destruct (IH (mkFan (<[closureBuf s := default [] (heap s !! closureBuf s) ++ [(evCount s, e)]]> (heap s))
        (closureBuf s) (sessionBuf s) (nextArr s) [] (inbox s) (nextSock s) (S (evCount s))
        (pe (files s) e)) eq_refl Hb) as (H1 & H2 & H3 & H4 & H5 & H6 & H7 & H8).
    cbn [inbox nextSock closureBuf sessionBuf evCount nextArr heap] in *.
    rewrite H1, H2, H3, H4, H5, H6, H7, H8, lookup_insert_eq. cbn [length].
    repeat split; try done; try lia. cbn. by rewrite <-app_assoc.
Qed.

Lemma send_ne k m (ib : gmap nat (list msg)) k' : k <> k' -> send k m ib !! k' = ib !! k'.
Proof. intros. unfold send. by rewrite lookup_insert_ne. Qed.

Lemma broadcast_notin ks m (ib : gmap nat (list msg)) k :
  k ∉ ks -> broadcast ks m ib !! k = ib !! k.
Proof.
  unfold broadcast. revert ib. induction ks as [|k1 ks IH]; intros ib Hk; simpl; [done|].
  rewrite elem_of_cons in Hk. rewrite IH by tauto. apply send_ne. intros ->. tauto.
Qed.

Lemma replay_ne k (l : list (nat * nat)) (ib : gmap nat (list msg)) k' :
  k <> k' -> fold_left (fun acc '(i, e) => send k (MEvent i e) acc) l ib !! k' = ib !! k'.
Proof.
  intros Hne. revert ib. induction l as [|[i e] l IH]; intros ib; simpl; [done|].
  by rewrite IH, send_ne.
Qed.

Ltac fan_proj :=
  cbn [heap closureBuf sessionBuf nextArr wsClients inbox nextSock evCount files].

Lemma fan_inv_init : fan_inv init_fan.
Proof. split; simpl; try lia; intros *; [set_solver|by rewrite lookup_empty]. Qed.

Lemma fan_inv_step pe s a : fan_inv s -> fan_inv (step pe s a).
Proof.
  intros [Hc Ha Hs Hcl Hib]. destruct a as [e| |k'|k' d|]; cbn [step].
  - unfold onEvent. destruct (wsClients s) as [|k1 ks] eqn:W; split; fan_proj; try done.
    + intros Hn. destruct (Hs Hn) as [Hne Hsb]. split; [done|].
      rewrite Hc in *. by rewrite lookup_insert_ne.
    + intros k Hk. rewrite broadcast_notin; [by apply Hib|].
      intros Hin. apply Hcl in Hin. lia.
  - unfold onConnect. split; fan_proj; try lia.
    + intros _. split; [lia|]. by rewrite lookup_insert_eq.
    + intros k. rewrite elem_of_app, list_elem_of_singleton.
      intros [Hk| ->]; [apply Hcl in Hk|]; lia.
    + intros k Hk. rewrite replay_ne by lia.
      destruct (files s); [|rewrite send_ne by lia]; apply Hib; lia.
  - split; fan_proj; try done. intros k Hk. apply list_elem_of_filter in Hk as [_ Hk]. by apply Hcl.
  - unfold onStateReply. case_bool_decide as Hin; [|by split].
    split; fan_proj; try done. intros k Hk. rewrite send_ne; [by apply Hib|].
    apply Hcl in Hin. lia.
  - unfold onBridgeExit. split; fan_proj; try done.
    intros k Hk. rewrite broadcast_notin; [by apply Hib|].
    intros Hin. apply Hcl in Hin. lia.
Qed.

Lemma fan_inv_run pe acts s : fan_inv s -> fan_inv (run pe acts s).
Proof.
  revert s. induction acts as [|a acts IH]; intros s H; simpl; [done|].
  apply IH. by apply fan_inv_step.
Qed.

Lemma run_nextSock_mono pe acts s : nextSock s <= nextSock (run pe acts s).
Proof.
  revert s. induction acts as [|a acts IH]; intros s; simpl; [lia|].
  pose proof (step_mono pe s a) as [_ H]. specialize (IH (step pe s a)). lia.
Qed.

Lemma connected_after_connect pe acts s : AConnect ∈ acts -> 0 < nextSock (run pe acts s).
Proof.
  revert s. induction acts as [|a acts IH]; intros s Hin;
    [by apply not_elem_of_nil in Hin|].
  change (run pe (a :: acts) s) with (run pe acts (step pe s a)).
  apply elem_of_cons in Hin as [<-|Hin]; [|by apply IH].
  pose proof (run_nextSock_mono pe acts (step pe s AConnect)) as H.
  cbn [step onConnect nextSock] in H |- *. lia.
Qed.

(** C3 (buffer replay exactly once).  Events [es] that arrive before any
    subscriber attaches are sent to the first subscriber (socket 0) in
    arrival order, each once, right after the files message; everything
    it receives afterwards is a state or exit message or an event that
    arrived after it attached (arrival index at least [length es]). *)
Theorem first_subscriber_replay (pe : list string -> nat -> list string)
    (es : list nat) (acts : list action) :
  exists post,
    received (run pe acts (onConnect (run pe (map AEvent es) init_fan))) 0
      = files_msg (files (run pe (map AEvent es) init_fan)) ++ as_msgs (arrivals 0 es) ++ post /\
    Forall (after_attach (length es)) post.
Proof.
  destruct (run_events_buffered pe es init_fan eq_refl eq_refl)
    as (H1 & H2 & H3 & H4 & H5 & H6 & H7 & H8).
  set (s1 := run pe (map AEvent es) init_fan) in *.
  destruct (run_received pe acts (onConnect s1) 0) as [post [E F]].
  { cbn. lia. }
  exists post. rewrite E. cbn [evCount onConnect] in F. rewrite H6 in F.
  split; [|done]. unfold received, onConnect. cbn [inbox].
  rewrite replay_lookup. rewrite decide_True; [|rewrite H3; reflexivity].
  rewrite H5, H3. cbn [sessionBuf closureBuf init_fan] in H8 |- *. rewrite H8. simpl.
  change (default [] ({[0 := []]} !! 0)) with (@nil (nat * nat)).
  rewrite app_nil_l, <-app_assoc. f_equal.
  destruct (files s1) as [|f fs]; cbn [files_msg].
  - rewrite H2. reflexivity.
  - unfold send. rewrite lookup_insert_eq, H2. reflexivity.
Qed.

(** C4 (no replay after the first attach).  Once a socket has attached
    ([AConnect] among the past actions [acts1]), [session.eventBuffer] is
    an empty array and stays one; a socket attaching at that point gets the
    files message and then only state or exit messages and events that
    arrive after its own attach (arrival index at least the number of
    events so far), whatever happens next ([acts2]). *)
Theorem no_replay_after_first_attach (pe : list string -> nat -> list string)
    (acts1 acts2 : list action) :
  AConnect ∈ acts1 ->
  heap (run pe acts1 init_fan) !! sessionBuf (run pe acts1 init_fan) = Some [] /\
  exists post,
    received (run pe acts2 (onConnect (run pe acts1 init_fan))) (nextSock (run pe acts1 init_fan))
      = files_msg (files (run pe acts1 init_fan)) ++ post /\
    Forall (after_attach (evCount (run pe acts1 init_fan))) post.
Proof.
  intros Hc. pose proof (connected_after_connect pe acts1 init_fan Hc) as Hn.
  pose proof (fan_inv_run pe acts1 init_fan fan_inv_init) as Hi.
  set (s := run pe acts1 init_fan) in *.
  destruct (finv_session _ Hi Hn) as [_ Hsb].
  split; [done|].
  destruct (run_received pe acts2 (onConnect s) (nextSock s)) as [post [E F]].
  { cbn. lia. }
  exists post. rewrite E. split; [|done].
  unfold received, onConnect. cbn [inbox].
  rewrite replay_lookup, decide_True, Hsb by done. cbn [default as_msgs map].
  rewrite app_nil_r. f_equal.
  pose proof (finv_inbox _ Hi (nextSock s) (le_n _)) as Hk.
  destruct (files s) as [|f fs]; cbn [files_msg].
  - by rewrite Hk.
  - unfold send. by rewrite lookup_insert_eq, Hk.
Qed.

Lemma no_replay_after_first_attach_witness :
  AConnect ∈ [AEvent 1; AConnect] /\
  heap (run (fun fs _ => fs) [AEvent 1; AConnect] init_fan)
    !! sessionBuf (run (fun fs _ => fs) [AEvent 1; AConnect] init_fan) = Some [] /\
  exists post,
    received (run (fun fs _ => fs) [AEvent 2]
                (onConnect (run (fun fs _ => fs) [AEvent 1; AConnect] init_fan)))
             (nextSock (run (fun fs _ => fs) [AEvent 1; AConnect] init_fan))
      = files_msg (files (run (fun fs _ => fs) [AEvent 1; AConnect] init_fan)) ++ post /\
    Forall (after_attach (evCount (run (fun fs _ => fs) [AEvent 1; AConnect] init_fan))) post.
Proof.
  assert (Hc : AConnect ∈ [AEvent 1; AConnect]).
  { apply elem_of_cons. right. apply elem_of_cons. left. reflexivity. }
  split; [exact Hc|].
  exact (no_replay_after_first_attach (fun fs _ => fs) [AEvent 1; AConnect] [AEvent 2] Hc).
Defined.

End EventFanoutProofs.

(* ------------------------------------------------------------------ *)
Module ReaperProofs.
Import Reaper.

(** The loop's test at a given cutoff. *)
Definition idle_at (cutoff : Z) (kv : string * conversation) : Prop :=
  Z.ltb (lastActiveAt kv.2) cutoff = true.

#[local] Instance idle_at_dec cutoff kv : Decision (idle_at cutoff kv).
Proof. unfold idle_at. apply _. Defined.

Lemma idle_at_loop cutoff c :
  Z.leb cutoff (lastActiveAt c) = negb (Z.ltb (lastActiveAt c) cutoff).
Proof. destruct (Z.leb_spec cutoff (lastActiveAt c)), (Z.ltb_spec (lastActiveAt c) cutoff); lia. Qed.

Lemma filter_all {A} (P : A -> Prop) `{!forall x, Decision (P x)} (l : list A) :
  (forall x, x ∈ l -> P x) -> filter P l = l.
Proof.
  induction l as [|x l IH]; intros HP; [done|].
  rewrite filter_cons_True by (apply HP; left). f_equal.
  apply IH. intros y Hy. apply HP. by right.
Qed.

Lemma reap_loop_active cutoff now entries m :
  active (reap_loop cutoff now entries m)
  = filter (fun kv => kv.1 ∉ fst <$> filter (idle_at cutoff) entries) (active m).
Proof.
  revert m. induction entries as [|[cid c] rest IH]; intros m; simpl.
  - symmetry. apply filter_all. intros x _. apply not_elem_of_nil.
  - rewrite idle_at_loop, filter_cons.
    destruct (decide (idle_at cutoff (cid, c))) as [Hi|Hi];
      unfold idle_at in Hi; simpl in Hi.
    + rewrite Hi. simpl. rewrite IH. cbn [active].
      rewrite list_filter_filter. apply list_filter_iff. intros x.
      rewrite ?fmap_cons, elem_of_cons. naive_solver.
    + apply not_true_is_false in Hi. rewrite Hi. simpl. apply IH.
Qed.

Lemma filter_ext_in {A} (P1 P2 : A -> Prop)
    `{!forall x, Decision (P1 x), !forall x, Decision (P2 x)} (l : list A) :
  (forall x, x ∈ l -> (P1 x <-> P2 x)) -> filter P1 l = filter P2 l.
Proof.
  induction l as [|x l IH]; intros HP; [done|].
  rewrite !filter_cons.
  assert (Hx : P1 x <-> P2 x) by (apply HP; left).
  rewrite IH by (intros y Hy; apply HP; by right).
  destruct (decide (P1 x)), (decide (P2 x)); naive_solver.
Qed.

Lemma keys_unique {A B} (l : list (A * B)) k b1 b2 :
  NoDup l.*1 -> (k, b1) ∈ l -> (k, b2) ∈ l -> b1 = b2.
Proof.
  induction l as [|[k' b'] l IH]; intros Hnd H1 H2.
  - by apply not_elem_of_nil in H1.
  - rewrite fmap_cons in Hnd. apply NoDup_cons in Hnd as [Hn Hnd].
    apply elem_of_cons in H1, H2.
    destruct H1 as [H1|H1], H2 as [H2|H2].
    + injection H1 as <- <-. by injection H2 as ->.
    + injection H1 as <- <-. exfalso. apply Hn.
      apply list_elem_of_fmap. by exists (k, b2).
    + injection H2 as <- <-. exfalso. apply Hn.
      apply list_elem_of_fmap. by exists (k, b1).
    + eauto.
Qed.

Lemma not_key_filter (P : string * conversation -> Prop) `{!forall x, Decision (P x)} k l :
  k ∉ l.*1 -> k ∉ (filter P l).*1.
Proof.
  intros Hn Hk. apply Hn. apply list_elem_of_fmap in Hk as (kv & -> & Hkv).
  apply list_elem_of_filter in Hkv as [_ Hkv].
  apply list_elem_of_fmap. by exists kv.
Qed.

Lemma reap_loop_killed cutoff now entries m :
  killed (reap_loop cutoff now entries m)
  = killed m ++ ((fun kv => bridge kv.2) <$> filter (idle_at cutoff) entries).
Proof.
  revert m. induction entries as [|[cid c] rest IH]; intros m; simpl.
  - by rewrite app_nil_r.
  - rewrite idle_at_loop, filter_cons.
    destruct (decide (idle_at cutoff (cid, c))) as [Hi|Hi];
      unfold idle_at in Hi; simpl in Hi.
    + rewrite Hi. simpl. rewrite IH. cbn [killed].
      rewrite ?fmap_cons. by rewrite <- app_assoc.
    + apply not_true_is_false in Hi. rewrite Hi. simpl. apply IH.
Qed.

Lemma reap_loop_store_other cutoff now entries m k :
  (forall kv, kv ∈ entries -> conversationId kv.2 = kv.1) ->
  k ∉ (filter (idle_at cutoff) entries).*1 ->
  store (reap_loop cutoff now entries m) !! k = store m !! k.
Proof.
  revert m. induction entries as [|[cid c] rest IH]; intros m Hk Hn; [done|].
  assert (Hk' : forall kv, kv ∈ rest -> conversationId kv.2 = kv.1)
    by (intros kv Hkv; apply Hk; by right).
  assert (Hc : conversationId c = cid) by (apply (Hk (cid, c)); left).
  simpl. rewrite idle_at_loop. rewrite filter_cons in Hn.
  destruct (decide (idle_at cutoff (cid, c))) as [Hi|Hi];
    unfold idle_at in Hi; simpl in Hi.
  - rewrite Hi. simpl. rewrite ?fmap_cons, elem_of_cons in Hn.
    rewrite IH by (done || naive_solver). cbn [store].
    rewrite lookup_insert_ne; [done|]. rewrite Hc. naive_solver.
  - apply not_true_is_false in Hi. rewrite Hi. simpl. by apply IH.
Qed.

Lemma reap_loop_store_idle cutoff now entries m k c :
  NoDup entries.*1 ->
  (forall kv, kv ∈ entries -> conversationId kv.2 = kv.1) ->
  (k, c) ∈ entries -> idle_at cutoff (k, c) ->
  store (reap_loop cutoff now entries m) !! k = Some (persisted c now).
Proof.
  revert m. induction entries as [|[cid c0] rest IH]; intros m Hnd Hk Hin Hi.
  - by apply not_elem_of_nil in Hin.
  - assert (Hk' : forall kv, kv ∈ rest -> conversationId kv.2 = kv.1)
      by (intros kv Hkv; apply Hk; by right).
    assert (Hc : conversationId c0 = cid) by (apply (Hk (cid, c0)); left).
    rewrite fmap_cons in Hnd. apply NoDup_cons in Hnd as [Hn Hnd].
    simpl. rewrite idle_at_loop.
    apply elem_of_cons in Hin as [Heq|Hin].
    + injection Heq as -> ->. unfold idle_at in Hi; simpl in Hi. rewrite Hi. simpl.
      rewrite reap_loop_store_other; [|done|by apply not_key_filter].
      cbn [store]. rewrite Hc. apply lookup_insert_eq.
    + destruct (Z.ltb (lastActiveAt c0) cutoff); simpl; by apply IH.
Qed.

(** A small sweep: at time 100000 with a 60 s threshold, conversation
    "a" (last active at 10000) is reaped and "b" (last active at 90000) stays. *)
Definition sample_conv (id : string) (b : nat) (t : Z) : conversation :=
  mkConv id b (Some ("/s/" +:+ id)) (Some id) (Some "anthropic") (Some "m") (Some "low") t.

Definition sample_manager : manager :=
  mkManager [("a", sample_conv "a" 1 10000); ("b", sample_conv "b" 2 90000)] ∅ [].

Example sample_sweep :
  reapIdle 60 100000 sample_manager
  = mkManager [("b", sample_conv "b" 2 90000)]
      {[ "a" := mkRecord "a" (Some "/s/a") (Some "a") (Some "anthropic") (Some "m")
                  (Some "low") 100000 ]} [1].
Proof. reflexivity. Qed.

(** C9: with [this.active] keyed by conversation id, one sweep of
    [reapIdle] (scheduled every 30 000 ms) at time [now] keeps exactly the
    conversations active since [now - sessionTimeoutSeconds*1000], kills the
    bridge of each idle one (in map order) and removes it, and writes for
    each idle conversation a record holding its session file, session id,
    model provider, model id and thinking level; the records of the other
    conversations are not written. *)
Theorem reapIdle_reaps_idle_only (sessionTimeoutSeconds now : Z) (m : manager) :
  NoDup (active m).*1 ->
  (forall kv, kv ∈ active m -> conversationId kv.2 = kv.1) ->
  idle_sweep_interval_ms = 30000%Z /\
  active (reapIdle sessionTimeoutSeconds now m)
    = filter (fun kv => stale sessionTimeoutSeconds now kv = false) (active m) /\
  killed (reapIdle sessionTimeoutSeconds now m)
    = killed m ++ ((fun kv => bridge kv.2) <$>
                    filter (fun kv => stale sessionTimeoutSeconds now kv = true) (active m)) /\
  (forall k c, (k, c) ∈ active m -> stale sessionTimeoutSeconds now (k, c) = true ->
     store (reapIdle sessionTimeoutSeconds now m) !! k
     = Some (mkRecord (conversationId c) (sessionFile c) (sessionId c)
               (modelProvider c) (modelId c) (thinkingLevel c) now)) /\
  (forall k, (forall c, (k, c) ∈ active m -> stale sessionTimeoutSeconds now (k, c) = false) ->
     store (reapIdle sessionTimeoutSeconds now m) !! k = store m !! k).
Proof.
  intros Hnd Hk. unfold reapIdle.
  set (cutoff := (now - sessionTimeoutSeconds * 1000)%Z).
  split; [done|]. split; [|split; [|split]].
  - rewrite reap_loop_active. apply filter_ext_in. intros [k c] Hin. simpl.
    unfold stale; simpl. fold cutoff. split.
    + intros Hn. apply not_true_is_false. intros Hi. apply Hn.
      apply list_elem_of_fmap. exists (k, c). split; [done|].
      by apply list_elem_of_filter.
    + intros Hs Hkey. apply list_elem_of_fmap in Hkey as ([k' c'] & Hkk & Hkv).
      simpl in Hkk. subst k'. apply list_elem_of_filter in Hkv as [Hi Hin'].
      rewrite (keys_unique _ _ _ _ Hnd Hin Hin') in Hs.
      unfold idle_at in Hi. simpl in Hi. congruence.
  - rewrite reap_loop_killed. do 2 f_equal.
  - intros k c Hin Hs. by apply reap_loop_store_idle.
  - intros k Hfresh. apply reap_loop_store_other; [done|].
    intros Hkey. apply list_elem_of_fmap in Hkey as ([k' c'] & Hkk & Hkv).
    simpl in Hkk. subst k'. apply list_elem_of_filter in Hkv as [Hi Hin'].
    specialize (Hfresh c' Hin'). unfold stale in Hfresh.
    unfold idle_at in Hi. simpl in *. fold cutoff in Hfresh. congruence.
Qed.

Lemma reapIdle_reaps_idle_only_witness :
  NoDup (active sample_manager).*1 /\
  (forall kv, kv ∈ active sample_manager -> conversationId kv.2 = kv.1) /\
  store (reapIdle 60 100000 sample_manager) !! "a"
  = Some (mkRecord "a" (Some "/s/a") (Some "a") (Some "anthropic") (Some "m") (Some "low") 100000).
Proof.
  assert (Hnd : NoDup (active sample_manager).*1) by (apply (bool_decide_unpack (NoDup ["a"; "b"])); vm_compute; reflexivity).
  assert (Hk : forall kv, kv ∈ active sample_manager -> conversationId kv.2 = kv.1).
  { intros kv Hkv. unfold sample_manager in Hkv; cbn [active] in Hkv. apply elem_of_cons in Hkv as [->|Hkv]; [done|].
    apply elem_of_cons in Hkv as [->|Hkv]; [done|]. by apply not_elem_of_nil in Hkv. }
  split; [exact Hnd|]. split; [exact Hk|].
  destruct (reapIdle_reaps_idle_only 60 100000 sample_manager Hnd Hk) as (_ & _ & _ & Hs & _).
  apply (Hs "a" (sample_conv "a" 1 10000)); [simpl; left|reflexivity].
Defined.

End ReaperProofs.

(* ------------------------------------------------------------------ *)
Module RigDispatchProofs.
Import RigDispatch.

Example normalize_sample :
  normalize ("  Fix  THE" +:+ String.String (Ascii.ascii_of_nat 9) "bug ") = "fix the bug".
Proof. reflexivity. Qed.

Lemma bridge_id_inj n1 n2 : bridge_id n1 = bridge_id n2 -> n1 = n2.
Proof. unfold bridge_id. intros H. apply (inj (String.append "bridge_")) in H. by apply (inj pretty). Qed.

Lemma execute_fresh cwd p t st b :
  snd (execute (Some cwd) p t st) = Dispatched b false ->
  truthy (p_provider p) = true /\ truthy (p_model p) = true /\
  b = bridge_id (bridgeIdCounter st + 1) /\
  fst (execute (Some cwd) p t st)
  = mkTools
      (<[dispatchDedupeKey cwd (p_message p) (p_provider p) (p_model p) (p_thinkingLevel p)
          := (t, b)]> (recentDispatches st))
      (delete (dispatchRequestKey cwd (p_message p) (p_thinkingLevel p)) (awaitingModelSelection st))
      (bridgeIdCounter st + 1) (spawned st ++ [b]).
Proof.
  unfold execute.
  destruct (truthy (p_provider p)) eqn:Hp, (truthy (p_model p)) eqn:Hm;
    rewrite ?andb_false_r; cbn [andb negb]; try discriminate.
  rewrite !andb_true_r.
  destruct (match awaitingModelSelection st !! _ with Some _ => _ | None => false end);
    [discriminate|].
  destruct (live_dispatch _ t); cbn [snd]; [discriminate|].
  intros H. injection H as <-. done.
Qed.

Lemma execute_dedupe cwd p t st bid :
  truthy (p_provider p) = true -> truthy (p_model p) = true ->
  awaitingModelSelection st !! dispatchRequestKey cwd (p_message p) (p_thinkingLevel p) = None ->
  live_dispatch (recentDispatches st !!
    dispatchDedupeKey cwd (p_message p) (p_provider p) (p_model p) (p_thinkingLevel p)) t = Some bid ->
  execute (Some cwd) p t st = (st, Dispatched bid true).
Proof.
  intros Hp Hm Ha Hl. unfold execute. rewrite Ha, Hp, Hm. cbn [andb negb]. by rewrite Hl.
Qed.

Lemma execute_new cwd p t st :
  truthy (p_provider p) = true -> truthy (p_model p) = true ->
  awaitingModelSelection st !! dispatchRequestKey cwd (p_message p) (p_thinkingLevel p) = None ->
  live_dispatch (recentDispatches st !!
    dispatchDedupeKey cwd (p_message p) (p_provider p) (p_model p) (p_thinkingLevel p)) t = None ->
  execute (Some cwd) p t st
  = (mkTools
      (<[dispatchDedupeKey cwd (p_message p) (p_provider p) (p_model p) (p_thinkingLevel p)
          := (t, bridge_id (bridgeIdCounter st + 1))]> (recentDispatches st))
      (delete (dispatchRequestKey cwd (p_message p) (p_thinkingLevel p)) (awaitingModelSelection st))
      (bridgeIdCounter st + 1) (spawned st ++ [bridge_id (bridgeIdCounter st + 1)]),
     Dispatched (bridge_id (bridgeIdCounter st + 1)) false).
Proof.
  intros Hp Hm Ha Hl. unfold execute. rewrite Ha, Hp, Hm. cbn [andb negb]. by rewrite Hl.
Qed.


(** C5: if a [rig_dispatch] call for [cwd] with message [m1], provider,
    model and thinking level dispatches a new bridge [b] at time [t1], then
    an identical call (same [cwd], provider, model and thinking level, a
    message with the same normalized text) at [t2] with [t2 - t1 < 45000]
    returns [b] again marked deduped, without spawning anything or changing
    state; and a third identical call at [t3] with [t3 - t1 >= 45000] spawns
    exactly one new process, whose bridge id differs from [b]. *)
Theorem dispatch_dedupe_window (cwd m1 m2 m3 : string) (provider model thinkingLevel : option string)
    (t1 t2 t3 : Z) (st : tools) (b : string) :
  normalize m2 = normalize m1 -> normalize m3 = normalize m1 ->
  snd (execute (Some cwd) (mkParams m1 provider model thinkingLevel) t1 st) = Dispatched b false ->
  (t2 - t1 < DUPLICATE_DISPATCH_WINDOW_MS)%Z ->
  (DUPLICATE_DISPATCH_WINDOW_MS <= t3 - t1)%Z ->
  let st1 := fst (execute (Some cwd) (mkParams m1 provider model thinkingLevel) t1 st) in
  spawned st1 = spawned st ++ [b] /\
  execute (Some cwd) (mkParams m2 provider model thinkingLevel) t2 st1 = (st1, Dispatched b true) /\
  exists b',
    snd (execute (Some cwd) (mkParams m3 provider model thinkingLevel) t3 st1) = Dispatched b' false /\
    b' <> b /\
    spawned (fst (execute (Some cwd) (mkParams m3 provider model thinkingLevel) t3 st1))
    = spawned st1 ++ [b'].
Proof.
  intros H2 H3 H1 Hw2 Hw3 st1.
  destruct (execute_fresh _ _ _ _ _ H1) as (Hp & Hm & Hb & Hst1). cbn [p_provider p_model] in Hp, Hm.
  cbn [p_message p_provider p_model p_thinkingLevel] in Hst1.
  fold st1 in Hst1.
  assert (Hdk : forall m, normalize m = normalize m1 ->
            dispatchDedupeKey cwd m provider model thinkingLevel
            = dispatchDedupeKey cwd m1 provider model thinkingLevel)
    by (intros m Hn; unfold dispatchDedupeKey; by rewrite Hn).
  assert (Hrk : forall m, normalize m = normalize m1 ->
            dispatchRequestKey cwd m thinkingLevel = dispatchRequestKey cwd m1 thinkingLevel)
    by (intros m Hn; unfold dispatchRequestKey; by rewrite Hn).
  assert (Ha : forall m, normalize m = normalize m1 ->
            awaitingModelSelection st1 !! dispatchRequestKey cwd m thinkingLevel = None)
    by (intros m Hn; rewrite Hst1, (Hrk m Hn); cbn [awaitingModelSelection];
        apply lookup_delete_eq).
  assert (Hr : forall m, normalize m = normalize m1 ->
            recentDispatches st1 !! dispatchDedupeKey cwd m provider model thinkingLevel
            = Some (t1, b))
    by (intros m Hn; rewrite Hst1, (Hdk m Hn); cbn [recentDispatches];
        apply lookup_insert_eq).
  split; [by rewrite Hst1|]. split.
  - apply execute_dedupe; cbn [p_message p_provider p_model p_thinkingLevel]; auto.
    rewrite (Hr m2 H2). unfold live_dispatch.
    destruct (Z.ltb_spec (t2 - t1) DUPLICATE_DISPATCH_WINDOW_MS); [done|lia].
  - rewrite execute_new; cbn [p_message p_provider p_model p_thinkingLevel]; auto.
    + exists (bridge_id (bridgeIdCounter st1 + 1)). split; [done|]. split; [|done].
      rewrite Hb, Hst1. cbn [bridgeIdCounter]. intros Heq. apply bridge_id_inj in Heq. lia.
    + rewrite (Hr m3 H3). unfold live_dispatch.
      destruct (Z.ltb_spec (t3 - t1) DUPLICATE_DISPATCH_WINDOW_MS); [lia|done].
Qed.

Definition sample_tools : tools := mkTools ∅ ∅ 4 [].

Lemma dispatch_dedupe_window_witness :
  normalize "Fix the bug" = normalize "Fix the bug" /\
  normalize " fix  THE bug" = normalize "Fix the bug" /\
  snd (execute (Some "/p") (mkParams "Fix the bug" (Some "anthropic") (Some "m") None) 1000
         sample_tools) = Dispatched "bridge_5" false /\
  (1000 - 1000 < DUPLICATE_DISPATCH_WINDOW_MS)%Z /\
  (DUPLICATE_DISPATCH_WINDOW_MS <= 50000 - 1000)%Z /\
  execute (Some "/p") (mkParams "Fix the bug" (Some "anthropic") (Some "m") None) 1000
    (fst (execute (Some "/p") (mkParams "Fix the bug" (Some "anthropic") (Some "m") None) 1000
            sample_tools))
  = (fst (execute (Some "/p") (mkParams "Fix the bug" (Some "anthropic") (Some "m") None) 1000
            sample_tools), Dispatched "bridge_5" true).
Proof.
  assert (Hn2 : normalize "Fix the bug" = normalize "Fix the bug") by reflexivity.
  assert (Hn3 : normalize " fix  THE bug" = normalize "Fix the bug") by reflexivity.
  assert (H1 : snd (execute (Some "/p") (mkParams "Fix the bug" (Some "anthropic") (Some "m") None)
                      1000 sample_tools) = Dispatched "bridge_5" false) by reflexivity.
  assert (Hw2 : (1000 - 1000 < DUPLICATE_DISPATCH_WINDOW_MS)%Z) by (unfold DUPLICATE_DISPATCH_WINDOW_MS; lia).
  assert (Hw3 : (DUPLICATE_DISPATCH_WINDOW_MS <= 50000 - 1000)%Z) by (unfold DUPLICATE_DISPATCH_WINDOW_MS; lia).
  do 5 (split; [assumption|]).
  exact (proj1 (proj2 (dispatch_dedupe_window "/p" "Fix the bug" "Fix the bug" " fix  THE bug"
           (Some "anthropic") (Some "m") None 1000 1000 50000 sample_tools "bridge_5"
           Hn2 Hn3 H1 Hw2 Hw3))).
Defined.

End RigDispatchProofs.

(* ------------------------------------------------------------------ *)
Module TurnProofs.
Import Turn.

Definition ev (ty : string) (m : message) : action := AEvent (mkEvent ty (Some m) None).

Definition agent_end : action := AEvent (mkEvent "agent_end" None None).

Lemma step_killSignals t a : killSignals (step t a) = killSignals t.
Proof.
  destruct a as [e| |]; cbn [step].
  - destruct (listening t); [|done]. unfold onEvent.
    repeat match goal with
           | |- context [if ?b then _ else _] => destruct b
           | |- context [match ?x with _ => _ end] => destruct x
           end; unfold finalize, set_text, cleanup; try done;
      repeat match goal with |- context [if ?b then _ else _] => destruct b end; done.
  - destruct (timerArmed t); done.
  - destruct (listening t); [|done]. unfold onExit. by destruct (finished t).
Qed.

(** [runTurn] never signals its bridge: whatever happens to a turn,
    including its timeout, no kill is sent. *)
Lemma run_killSignals acts t : killSignals (run acts t) = killSignals t.
Proof.
  revert t. induction acts as [|a acts IH]; intros t; [done|].
  cbn [run fold_left]. change (killSignals (run acts (step t a)) = killSignals t).
  by rewrite IH, step_killSignals.
Qed.

(** The timer rejects a turn that has not settled yet. *)
Lemma timeout_rejects t :
  timerArmed t = true -> done t = None ->
  done (step t ATimeout) = Some (Rejected "Timed out waiting for operator turn to finish") /\
  killSignals (step t ATimeout) = killSignals t.
Proof. intros Ha Hd. cbn [step]. rewrite Ha. unfold onTimeout, settle, cleanup. simpl. by rewrite Hd. Qed.


(** An assistant message that carries only a tool call, and the later
    assistant message with the answer. *)
Definition toolOnly : message := mkMessage (Some "assistant") (Some (CArray [BOther])).
Definition answer : message := mkMessage (Some "assistant") (Some (CArray [BText "All done."])).

(** C7: a turn is not completed only by an assistant message with non-empty
    text or an end-of-turn event. A [message] event for an assistant message
    whose text is empty settles the turn at once with text "", and the
    answer and [agent_end] that follow are ignored. The same message ending
    with [message_end] does not settle the turn, which then resolves with
    the answer. *)
Theorem empty_assistant_message_completes_turn :
  done (run [ev "message_start" toolOnly; ev "message" toolOnly;
             ev "message_start" answer; ev "message_end" answer; agent_end] start_turn)
  = Some (Resolved "" [])
  /\
  done (run [ev "message_start" toolOnly; ev "message_end" toolOnly;
             ev "message_start" answer; ev "message_end" answer; agent_end] start_turn)
  = Some (Resolved "All done." []).
Proof. split; vm_compute; reflexivity. Qed.

End TurnProofs.

(* ------------------------------------------------------------------ *)
Module TurnQueueProofs.
Import TurnQueue.

(** C6: two [sendMessage] calls for conversation "c1" on a fresh manager,
    the second issued before the first has finished [ensureConversation].
    Both find no active conversation and each spawns its own bridge, so
    the second turn's prompt is written (to bridge 2) before the first
    turn's terminal event. Once a conversation is active, a second call
    chains on the same queue: its prompt waits for the first turn's end. *)
Theorem concurrent_first_turns_interleave :
  log (run [ACall 1; ACall 2; ASpawn 1; ASpawn 2; AChain 1; AChain 2;
            AStartTurn 1; AStartTurn 2] (init_sm [(1, "c1"); (2, "c1")]))
  = [Prompt 1 1; Prompt 2 2]
  /\
  log (run [ACall 1; ASpawn 1; ACall 2; AChain 1; AChain 2; AStartTurn 1;
            AStartTurn 2; AEndTurn 1; AStartTurn 2] (init_sm [(1, "c1"); (2, "c1")]))
  = [Prompt 1 1; Terminal 1; Prompt 1 2].
Proof. split; vm_compute; reflexivity. Qed.

End TurnQueueProofs.

(* ------------------------------------------------------------------ *)
Module ResumeRouteProofs.
Import ResumeRoute.

(** C8: two [POST /api/resume] requests for [{sessionFile: "/s.jsonl",
    cwd: "/p"}]; the second reaches the [activeSessions] check while the
    first is in [spawnPi]'s startup wait. At that moment bridge_1 is live and
    bound to "/s.jsonl", yet the second request spawns bridge_2 and neither
    answer carries [alreadyActive]. Had the second request come after the
    first was registered, it would have been answered with bridge_1. *)
Theorem resume_during_startup_spawns_duplicate :
  let reqs := [(1%nat, "/s.jsonl", "/p"); (2%nat, "/s.jsonl", "/p")] in
  live_bound (run [ACheck 1; ASpawn 1] (init_server reqs)) "/s.jsonl" = ["bridge_1"] /\
  let s := run [ACheck 1; ASpawn 1; ACheck 2; ASpawn 2; ARegister 1; ARegister 2]
               (init_server reqs) in
  spawnedProcs s = ["bridge_1"; "bridge_2"] /\
  responses s = [(1%nat, Started "bridge_1"); (2%nat, Started "bridge_2")] /\
  live_bound s "/s.jsonl" = ["bridge_1"; "bridge_2"] /\
  let s' := run [ACheck 1; ASpawn 1; ARegister 1; ACheck 2] (init_server reqs) in
  spawnedProcs s' = ["bridge_1"] /\
  responses s' = [(1%nat, Started "bridge_1"); (2%nat, AlreadyActive "bridge_1")].
Proof. vm_compute. repeat split. Qed.

End ResumeRouteProofs.

(* ------------------------------------------------------------------ *)
(** ** The process channel: further properties *)
(* ------------------------------------------------------------------ *)

Module PiBridgeMore.
Import PiBridge PiBridgeProofs.

(** The state of a channel whose process has exited, relative to [b], the
    number of [sendCommand] calls made before the exit. *)
Record dead_inv (b : nat) (w : list (string * string)) (s : chan) : Prop := {
  dinv_chan : chan_inv s;
  dinv_alive : alive s = false;
  dinv_pending : pendingRequests s = ∅;
  dinv_stdin : stdin s = w;
  dinv_issued : b <= issued s;
  dinv_timers : forall h x, timers s !! h = Some x -> h < b;
  dinv_rejected : forall h, b <= h < issued s -> settled s !! h = Some (Rejected ErrNotAlive);
}.

Lemma dead_inv_step b w s a : dead_inv b w s -> dead_inv b w (step s a).
Proof.
  intros [Hc Ha Hp Hw Hb Ht Hr].
  pose proof (chan_inv_step s a Hc) as Hc'.
  destruct a as [c|[d|]|h'|c g]; cbn [step] in *.
  - unfold sendCommand in *. rewrite Ha in *. cbn [negb] in *.
    split; cbn [alive pendingRequests stdin issued timers settled]; try done; try lia.
    intros h Hh. destruct (decide (h = issued s)) as [->|Hne].
    + apply settle_fresh. destruct (settled s !! issued s) eqn:E; [|done].
      apply (inv_settled _ Hc) in E. lia.
    + rewrite settle_ne by done. apply Hr. lia.
  - unfold onLine in *.
    assert (M : response_match s d = None).
    { unfold response_match. rewrite Hp. by repeat case_match. }
    rewrite M in *. by split.
  - by split.
  - unfold onTimer in *. destruct (timers s !! h') as [[id c]|] eqn:E; [|by split].
    pose proof (Ht _ _ E) as Hlt.
    split; cbn [alive pendingRequests stdin issued timers settled]; try done.
    + by rewrite Hp, delete_empty.
    + intros h x Hx. rewrite lookup_delete_ne in Hx; [eauto|].
      intros ->. by rewrite lookup_delete_eq in Hx.
    + intros h Hh. rewrite settle_ne by lia. auto.
  - unfold onExit in *. rewrite Hp, map_to_list_empty in *. by split.
Qed.

(** After the process exits, the channel stays dead: nothing more is
    written to the process's stdin, no request is pending, and every
    [sendCommand] made after the exit is rejected with "Pi process is not
    alive". *)
Theorem no_command_written_after_exit (acts0 acts : list action) (code signal : option Z) :
  let s0 := onExit (run acts0 init_chan) code signal in
  alive (run acts s0) = false /\
  pendingRequests (run acts s0) = ∅ /\
  stdin (run acts s0) = stdin s0 /\
  (forall h, issued s0 <= h < issued (run acts s0) ->
     settled (run acts s0) !! h = Some (Rejected ErrNotAlive)).
Proof.
  intros s0.
  assert (H0 : dead_inv (issued s0) (stdin s0) s0).
  { pose proof (chan_inv_reachable acts0) as Hi.
    split; try done.
    - apply (chan_inv_step _ (AExit code signal)), Hi.
    - intros h x Hx. unfold s0, onExit in Hx. simpl in Hx.
      apply reject_all_timers in Hx. simpl in Hx.
      destruct x as [id c]. apply (inv_timers _ Hi) in Hx.
      apply (inv_assigned _ Hi) in Hx. unfold s0, onExit. simpl. lia.
    - intros h Hh. lia. }
  assert (Hrun : forall l s, dead_inv (issued s0) (stdin s0) s ->
            dead_inv (issued s0) (stdin s0) (run l s)).
  { intros l. induction l as [|a l IH]; intros s Hs; [done|].
    apply IH. by apply dead_inv_step. }
  destruct (Hrun acts s0 H0) as [_ Ha Hp Hw _ _ Hr]. auto.
Qed.


Definition written_ids (s : chan) : list string := (stdin s).*2.

Lemma step_written_ids s a :
  written_ids s = (fun k => req_id (N.of_nat k)) <$> seq 1 (N.to_nat (nextRequestId s)) ->
  written_ids (step s a)
  = (fun k => req_id (N.of_nat k)) <$> seq 1 (N.to_nat (nextRequestId (step s a))).
Proof.
  intros H. destruct a as [c|[d|]|h'|c g]; cbn [step].
  - unfold sendCommand. destruct (alive s); [|done]. unfold written_ids in *. simpl.
    rewrite fmap_app, H. rewrite N2Nat.inj_add. simpl.
    rewrite Nat.add_1_r, seq_S, fmap_app. simpl. do 3 f_equal. lia.
  - unfold onLine. by destruct (response_match s d) as [[id h']|].
  - done.
  - unfold onTimer. by destruct (timers s !! h') as [[id c]|].
  - done.
Qed.

(** The command lines written to the process carry the ids "req_1",
    "req_2", ... in the order they are written, one per live
    [sendCommand] call: no request id is ever reused on a channel. *)
Theorem request_ids_sequential (acts : list action) :
  (stdin (run acts init_chan)).*2
  = (fun k => req_id (N.of_nat k)) <$> seq 1 (N.to_nat (nextRequestId (run acts init_chan))) /\
  NoDup (stdin (run acts init_chan)).*2.
Proof.
  assert (H : forall l s,
            written_ids s = (fun k => req_id (N.of_nat k)) <$> seq 1 (N.to_nat (nextRequestId s)) ->
            written_ids (run l s)
            = (fun k => req_id (N.of_nat k)) <$> seq 1 (N.to_nat (nextRequestId (run l s)))).
  { intros l. induction l as [|a l IH]; intros s Hs; [done|].
    apply IH. by apply step_written_ids. }
  specialize (H acts init_chan eq_refl). unfold written_ids in H.
  split; [exact H|]. rewrite H.
  apply NoDup_fmap_2; [|apply NoDup_seq].
  intros k1 k2 E. apply req_id_inj in E. lia.
Qed.

End PiBridgeMore.

(* ------------------------------------------------------------------ *)
Module EventFanoutMore.
Import EventFanout EventFanoutProofs.

Lemma step_closed pe s a k :
  k < nextSock s -> k ∉ wsClients s ->
  k < nextSock (step pe s a) /\ (k ∉ wsClients (step pe s a)) /\
  inbox (step pe s a) !! k = inbox s !! k.
Proof.
  intros Hk Hn. destruct a as [e| |k'|k' d|]; cbn [step].
  - unfold onEvent. destruct (wsClients s) as [|k1 ks] eqn:W; fan_proj.
    + auto.
    + rewrite broadcast_notin by done. split; [done|]. by split.
  - unfold onConnect. fan_proj. split; [lia|]. split.
    + rewrite elem_of_app, list_elem_of_singleton. intros [|]; [done|lia].
    + rewrite replay_ne by lia. destruct (files s); [done|]. apply send_ne. lia.
  - unfold onClose. fan_proj. split; [done|]. split; [|done].
    rewrite list_elem_of_filter. tauto.
  - unfold onStateReply. case_bool_decide as Hin; [|auto]. fan_proj.
    split; [done|]. split; [done|]. apply send_ne. intros ->. contradiction.
  - cbn [onBridgeExit]. fan_proj. split; [done|]. split; [done|].
    by apply broadcast_notin.
Qed.

(** Once socket [k] has been removed from [wsClients] (its ["close"]
    handler ran), nothing more is sent to it: no event, no state reply,
    no exit notice, whatever the bridge and the other sockets do next. *)
Theorem closed_socket_receives_nothing (pe : list string -> nat -> list string)
    (acts : list action) (s : fan) (k : nat) :
  k < nextSock s -> k ∉ wsClients s ->
  received (run pe acts s) k = received s k.
Proof.
  unfold received. revert s. induction acts as [|a acts IH]; intros s Hk Hn; [done|].
  change (default [] (inbox (run pe acts (step pe s a)) !! k) = default [] (inbox s !! k)).
  destruct (step_closed pe s a k Hk Hn) as (Hk' & Hn' & Hi).
  rewrite IH by done. by rewrite Hi.
Qed.

Lemma closed_socket_receives_nothing_witness :
  let s := run (fun fs _ => fs) [AEvent 5; AConnect; AClose 0] init_fan in
  (0 < nextSock s /\ (0 ∉ wsClients s) /\
   received (run (fun fs _ => fs) [AEvent 6; AConnect; AStateReply 0 1; ABridgeExit] s) 0
   = [MEvent 0 5]).
Proof.
  intros s.
  assert (H1 : 0 < nextSock s) by (vm_compute; lia).
  assert (E : wsClients s = []) by (vm_compute; reflexivity).
  assert (H2 : 0 ∉ wsClients s) by (rewrite E; apply not_elem_of_nil).
  split; [exact H1|]. split; [exact H2|].
  rewrite (closed_socket_receives_nothing _ _ s 0 H1 H2). vm_compute. reflexivity.
Defined.

End EventFanoutMore.

(* ------------------------------------------------------------------ *)
(** ** Operator turns: settlement *)
(* ------------------------------------------------------------------ *)

Module TurnMore.
Import Turn TurnProofs.

(** What [onEvent] does to a turn: it leaves the listener, timer, promise
    and [finished] flag alone, or it ends in [finalize()]. *)
Lemma onEvent_shape t e :
  (listening (onEvent t e) = listening t /\ timerArmed (onEvent t e) = timerArmed t /\
   done (onEvent t e) = done t /\ finished (onEvent t e) = finished t) \/
  (exists x, onEvent t e = finalize (set_text t x)).
Proof.
  unfold onEvent.
  destruct (String.eqb (etype e) "message_start" && is_role (emessage e) "assistant");
    [left; done|].
  destruct (String.eqb (etype e) "message_update" && seenAssistantMessage t
            && is_role (emessage e) "assistant"); [left; done|].
  destruct (String.eqb (etype e) "message" && is_role (emessage e) "assistant");
    [right; eexists; done|].
  match goal with |- context [match ?m with Some _ => _ | None => _ end] =>
    destruct m as [t'|] eqn:Hend end.
  - right. repeat case_match; simplify_eq; eexists; done.
  - repeat case_match; try (left; done).
    all: right; exists (assistantText t); by destruct t.
Qed.

(** The bookkeeping [runTurn] keeps: the timer is armed exactly while the
    listeners are attached, which is exactly while [done] is pending, and
    [finished] implies the listeners are gone. *)
Record tinv (t : turn) : Prop := {
  ti_timer : timerArmed t = listening t;
  ti_done : done t = None <-> listening t = true;
  ti_fin : finished t = true -> listening t = false;
}.

Lemma tinv_start : tinv start_turn.
Proof. split; simpl; intuition congruence. Qed.

Lemma tinv_finalize t : tinv t -> tinv (finalize t).
Proof.
  intros I. pose proof I as [Ht Hd Hf]. unfold finalize.
  destruct (finished t) eqn:F; [done|].
  split; simpl; [done| |done]. unfold settle, cleanup. simpl.
  destruct (done t); split; congruence.
Qed.

Lemma tinv_step t a : tinv t -> tinv (step t a).
Proof.
  intros I. pose proof I as [Ht Hd Hf]. destruct a as [e| |]; cbn [step].
  - destruct (listening t) eqn:L; [|done].
    destruct (onEvent_shape t e) as [(H1 & H2 & H3 & H4)|[x ->]].
    + split; rewrite ?H1, ?H2, ?H3, ?H4, ?L; assumption.
    + apply tinv_finalize. destruct I as [A B C]. by split.
  - destruct (timerArmed t) eqn:T; [|done]. unfold onTimeout, settle, cleanup. simpl.
    assert (LL : listening t = true) by congruence. apply Hd in LL.
    rewrite LL. split; simpl; intuition congruence.
  - destruct (listening t) eqn:L; [|done]. unfold onExit.
    destruct (finished t) eqn:F; [done|]. unfold settle, cleanup. simpl.
    assert (D : done t = None) by (apply Hd; done). rewrite D.
    split; simpl; intuition congruence.
Qed.

Lemma tinv_run acts t : tinv t -> tinv (run acts t).
Proof.
  revert t. induction acts as [|a acts IH]; intros t I; [done|].
  apply (IH (step t a)). by apply tinv_step.
Qed.

Lemma settled_step t a : tinv t -> done t <> None -> step t a = t.
Proof.
  intros [Ht Hd Hf] D.
  assert (L : listening t = false) by (destruct (listening t) eqn:E; [|done]; exfalso; by apply D, Hd).
  destruct a; cbn [step]; rewrite ?L; [done| |done]. by rewrite Ht, L.
Qed.

(** Once a turn's promise has settled (resolved by [finalize] or rejected
    by the timer or the exit handler), the turn is frozen: later events,
    the timer and the exit of the bridge change nothing, neither its
    outcome nor its text nor its tool calls. *)
Theorem settled_turn_is_frozen (acts1 acts2 : list action) (r : settlement) :
  done (run acts1 start_turn) = Some r ->
  run acts2 (run acts1 start_turn) = run acts1 start_turn.
Proof.
  intros D. pose proof (tinv_run acts1 start_turn tinv_start) as I.
  generalize dependent (run acts1 start_turn). intros t D I.
  induction acts2 as [|a acts2 IH]; [done|].
  change (run acts2 (step t a) = t). rewrite settled_step by (done || congruence).
  exact IH.
Qed.

Lemma settled_turn_is_frozen_witness :
  done (run [agent_end] start_turn) = Some (Resolved "" []) /\
  run [ATimeout; AExit; ev "message" answer] (run [agent_end] start_turn)
  = run [agent_end] start_turn.
Proof.
  assert (D : done (run [agent_end] start_turn) = Some (Resolved "" [])) by (vm_compute; reflexivity).
  split; [exact D|]. exact (settled_turn_is_frozen [agent_end] _ _ D).
Defined.

(** A turn still pending settles at the next [agent_end], exit or timer:
    [agent_end] resolves it with the trimmed text and the tool calls seen
    so far, the bridge's exit rejects it with "Operator session exited
    while handling message", the timer with "Timed out waiting for
    operator turn to finish". *)
Theorem pending_turn_settlement (acts : list action) :
  let t := run acts start_turn in
  done t = None ->
  done (step t agent_end) = Some (Resolved (trim_string (assistantText t)) (toolCalls t)) /\
  done (step t AExit) = Some (Rejected "Operator session exited while handling message") /\
  done (step t ATimeout) = Some (Rejected "Timed out waiting for operator turn to finish").
Proof.
  intros t D. pose proof (tinv_run acts start_turn tinv_start) as [Ht Hd Hf].
  fold t in Ht, Hd, Hf. apply Hd in D as L.
  assert (F : finished t = false) by (destruct (finished t) eqn:E; [exfalso; specialize (Hf eq_refl); congruence|done]).
  unfold agent_end. cbn [step]. rewrite Ht, !L. unfold onEvent, onExit, onTimeout. simpl.
  unfold finalize, settle, cleanup. rewrite F. simpl. by rewrite D.
Qed.

Lemma pending_turn_settlement_witness :
  done (run [ev "message_start" answer] start_turn) = None /\
  done (step (run [ev "message_start" answer] start_turn) agent_end)
  = Some (Resolved "All done." []).
Proof.
  assert (D : done (run [ev "message_start" answer] start_turn) = None) by (vm_compute; reflexivity).
  split; [exact D|].
  destruct (pending_turn_settlement [ev "message_start" answer] D) as [H _].
  rewrite H. vm_compute. reflexivity.
Defined.

End TurnMore.

(* ------------------------------------------------------------------ *)
(** ** Operator turn queue: serialization per conversation object *)
(* ------------------------------------------------------------------ *)

Module TurnQueueMore.
Import TurnQueue.

(** What the queue keeps: a running turn is the head of its object's
    chain, and objects named by tasks or by [this.active] were created
    already ([o < nextObj]). *)
Record qinv (s : sm) : Prop := {
  q_running : forall i t o, tasks s !! i = Some t -> tphase t = PRunning o ->
    exists c, convs s !! o = Some c /\ head (chain c) = Some i;
  q_tasks : forall i t o, tasks s !! i = Some t ->
    (tphase t = PAttached o \/ tphase t = PQueued o \/ tphase t = PRunning o) ->
    o < nextObj s;
  q_active : forall k o, active s !! k = Some o -> o < nextObj s;
}.

Lemma set_phase_lookup s i t ph j :
  set_phase s i t ph !! j = if decide (i = j) then Some (mkTask (tconv t) ph) else tasks s !! j.
Proof.
  unfold set_phase. case_decide as E.
  - subst. by rewrite lookup_insert_eq.
  - by rewrite lookup_insert_ne.
Qed.

Lemma qinv_init calls : qinv (init_sm calls).
Proof.
  assert (H : forall i t, tasks (init_sm calls) !! i = Some t -> tphase t = PStart).
  { intros i t Hi. cbn [init_sm tasks] in Hi. apply elem_of_list_to_map_2 in Hi.
    apply list_elem_of_fmap in Hi as [[i' c] [E _]]. by injection E as -> ->. }
  split.
  - intros i t o Hi Hp. rewrite (H i t Hi) in Hp. discriminate.
  - intros i t o Hi Hp. rewrite (H i t Hi) in Hp. intuition discriminate.
  - intros k o Hk. cbn [init_sm active] in Hk. by rewrite lookup_empty in Hk.
Qed.

Ltac phase_cases Hj :=
  rewrite set_phase_lookup in Hj; case_decide; [subst; injection Hj as <-; simpl in *|].

Lemma qinv_step s a : qinv s -> qinv (step s a).
Proof.
  intros I. pose proof I as [Q1 Q2 Q3].
  destruct a as [i|i|i|i|i]; cbn [step];
    (destruct (tasks s !! i) as [t|] eqn:Ti; [|exact I]);
    (destruct (tphase t) as [| |o|o|o|] eqn:Pt; try exact I).
  - (* ACall *)
    destruct (active s !! tconv t) as [o|] eqn:Ao; split; cbn [tasks convs nextObj active].
    + intros j tj o' Hj Hp. phase_cases Hj; [discriminate|eauto].
    + intros j tj o' Hj Hp. phase_cases Hj.
      * destruct Hp as [[= <-]|[|]]; [eauto|discriminate|discriminate].
      * eauto.
    + exact Q3.
    + intros j tj o' Hj Hp. phase_cases Hj; [discriminate|eauto].
    + intros j tj o' Hj Hp. phase_cases Hj; [intuition discriminate|eauto].
    + exact Q3.
  - (* ASpawn *)
    split; cbn [tasks convs nextObj active].
    + intros j tj o' Hj Hp. phase_cases Hj; [discriminate|].
      destruct (Q1 j tj o' Hj Hp) as [c [Hc Hh]].
      assert (o' < nextObj s) by (eapply Q2; eauto).
      exists c. rewrite lookup_insert_ne by lia. done.
    + intros j tj o' Hj Hp. phase_cases Hj.
      * destruct Hp as [[= <-]|[|]]; [lia|discriminate|discriminate].
      * assert (o' < nextObj s) by (eapply Q2; eauto). lia.
    + intros k o' Hk. destruct (decide (tconv t = k)) as [<-|ne].
      * rewrite lookup_insert_eq in Hk. injection Hk as <-. lia.
      * rewrite lookup_insert_ne in Hk by done. apply Q3 in Hk. lia.
  - (* AChain *)
    destruct (convs s !! o) as [c|] eqn:Co; [|exact I].
    split; cbn [tasks convs nextObj active].
    + intros j tj o' Hj Hp. phase_cases Hj; [discriminate|].
      destruct (Q1 j tj o' Hj Hp) as [c' [Hc Hh]].
      destruct (decide (o = o')) as [<-|ne].
      * rewrite lookup_insert_eq. eexists; split; [done|]. simpl.
        rewrite Co in Hc. injection Hc as <-. by destruct (chain c).
      * rewrite lookup_insert_ne by done. eauto.
    + intros j tj o' Hj Hp. phase_cases Hj.
      * destruct Hp as [|[[= <-]|]]; [discriminate| |discriminate].
        eapply Q2; [exact Ti|]. by left.
      * eauto.
    + exact Q3.
  - (* AStartTurn *)
    destruct (convs s !! o) as [c|] eqn:Co; [|exact I].
    case_bool_decide as Hh; [|exact I].
    split; cbn [tasks convs nextObj active].
    + intros j tj o' Hj Hp. phase_cases Hj.
      * injection Hp as <-. eauto.
      * eauto.
    + intros j tj o' Hj Hp. phase_cases Hj.
      * destruct Hp as [|[|[= <-]]]; [discriminate|discriminate|].
        eapply Q2; [exact Ti|]. by right; left.
      * eauto.
    + exact Q3.
  - (* AEndTurn *)
    destruct (convs s !! o) as [c|] eqn:Co; [|exact I].
    split; cbn [tasks convs nextObj active].
    + intros j tj o' Hj Hp. phase_cases Hj; [discriminate|].
      destruct (Q1 j tj o' Hj Hp) as [c' [Hc Hh]].
      destruct (decide (o = o')) as [<-|ne].
      * destruct (Q1 i t o Ti Pt) as [c'' [Hc'' Hh'']].
        rewrite Hc in Hc''. injection Hc'' as <-. rewrite Hh in Hh''.
        injection Hh'' as ->. done.
      * rewrite lookup_insert_ne by done. eauto.
    + intros j tj o' Hj Hp. phase_cases Hj; [intuition discriminate|eauto].
    + exact Q3.
Qed.

Lemma qinv_run acts s : qinv s -> qinv (run acts s).
Proof.
  revert s. induction acts as [|a acts IH]; intros s I; [done|].
  apply (IH (step s a)). by apply qinv_step.
Qed.

(** The [queue] of one conversation object serializes its turns: at any
    moment at most one [sendMessage] call chained on an object is past
    its prompt and waiting for the turn's end. (Two objects created for
    the same conversation id by racing first calls are separate queues.) *)
Theorem one_running_turn_per_conversation (calls : list (nat * string))
    (acts : list action) (i j : nat) (ti tj : task) (o : nat) :
  let s := run acts (init_sm calls) in
  tasks s !! i = Some ti -> tphase ti = PRunning o ->
  tasks s !! j = Some tj -> tphase tj = PRunning o ->
  i = j.
Proof.
  intros s Hi Pi Hj Pj. destruct (qinv_run acts _ (qinv_init calls)) as [Q1 _ _].
  destruct (Q1 i ti o Hi Pi) as [c [Hc Hh]]. destruct (Q1 j tj o Hj Pj) as [c' [Hc' Hh']].
  fold s in Hc, Hc'. rewrite Hc in Hc'. injection Hc' as <-. congruence.
Qed.

Lemma one_running_turn_per_conversation_witness :
  let s := run [ACall 1; ASpawn 1; ACall 2; AChain 1; AChain 2; AStartTurn 1; AStartTurn 2]
               (init_sm [(1, "c1"); (2, "c1")]) in
  tasks s !! 1 = Some (mkTask "c1" (PRunning 1)) /\ tasks s !! 2 = Some (mkTask "c1" (PQueued 1)) /\
  1 = 1.
Proof.
  intros s.
  assert (H1 : tasks s !! 1 = Some (mkTask "c1" (PRunning 1))) by (vm_compute; reflexivity).
  assert (H2 : tasks s !! 2 = Some (mkTask "c1" (PQueued 1))) by (vm_compute; reflexivity).
  split; [exact H1|]. split; [exact H2|].
  exact (one_running_turn_per_conversation _ _ 1 1 _ _ 1 H1 eq_refl H1 eq_refl).
Defined.

End TurnQueueMore.

(* ------------------------------------------------------------------ *)
(** ** [rig_dispatch]: the model-selection gate and the spawned ids *)
(* ------------------------------------------------------------------ *)

Module RigDispatchMore.
Import RigDispatch RigDispatchProofs.

(** A run of [rig_dispatch] calls, each with the outcome of its
    [resolveDispatchCwd], its parameters and its [Date.now()]. *)
Definition run_calls (calls : list (option string * params * Z)) (st : tools) : tools :=
  fold_left (fun st '(r, p, t) => fst (execute r p t st)) calls st.

Lemma execute_spawn_cases r p t st :
  let st' := fst (execute r p t st) in
  (bridgeIdCounter st' = bridgeIdCounter st /\ spawned st' = spawned st) \/
  (bridgeIdCounter st' = (bridgeIdCounter st + 1)%N /\
   spawned st' = spawned st ++ [bridge_id (bridgeIdCounter st + 1)]).
Proof.
  unfold execute. destruct r as [cwd|]; [|by left].
  destruct (_ && truthy (p_provider p) && truthy (p_model p)); [by left|].
  destruct (negb _); [by left|].
  destruct (live_dispatch _ t); [by left|]. by right.
Qed.

(** A [rig_dispatch] call without both a provider and a model spawns
    nothing and answers [needsModel], recording the request as awaiting a
    model at [now]. A call for the same project, normalized message and
    thinking level that then comes with a provider and a model less than
    10 minutes later is held back with [awaitingModelSelection]: it spawns
    nothing and leaves the state unchanged. *)
Theorem model_selection_gate (cwd m m' : string)
    (provider model provider' model' thinkingLevel : option string) (t t' : Z) (st : tools) :
  truthy provider && truthy model = false ->
  truthy provider' = true -> truthy model' = true ->
  normalize m' = normalize m ->
  t <> 0%Z -> (t' - t < AWAITING_MODEL_WINDOW_MS)%Z ->
  let st1 := fst (execute (Some cwd) (mkParams m provider model thinkingLevel) t st) in
  snd (execute (Some cwd) (mkParams m provider model thinkingLevel) t st) = NeedsModel /\
  spawned st1 = spawned st /\ bridgeIdCounter st1 = bridgeIdCounter st /\
  awaitingModelSelection st1 !! dispatchRequestKey cwd m thinkingLevel = Some t /\
  execute (Some cwd) (mkParams m' provider' model' thinkingLevel) t' st1 = (st1, AwaitingModel).
Proof.
  intros Hpm Hp' Hm' Hn Ht Hw st1.
  assert (E : execute (Some cwd) (mkParams m provider model thinkingLevel) t st
              = (mkTools (recentDispatches st)
                   (<[dispatchRequestKey cwd m thinkingLevel := t]> (awaitingModelSelection st))
                   (bridgeIdCounter st) (spawned st), NeedsModel)).
  { unfold execute. cbn [p_message p_provider p_model p_thinkingLevel].
    destruct (truthy provider), (truthy model); try discriminate; by rewrite ?andb_false_r. }
  unfold st1. rewrite E. cbn [fst snd spawned bridgeIdCounter awaitingModelSelection].
  do 3 (split; [done|]). split; [apply lookup_insert_eq|].
  unfold execute. cbn [p_message p_provider p_model p_thinkingLevel awaitingModelSelection].
  assert (K : dispatchRequestKey cwd m' thinkingLevel = dispatchRequestKey cwd m thinkingLevel)
    by (unfold dispatchRequestKey; by rewrite Hn).
  rewrite K, lookup_insert_eq, Hp', Hm'.
  destruct (Z.eqb_spec t 0); [done|]. destruct (Z.ltb_spec (t' - t) AWAITING_MODEL_WINDOW_MS); [done|lia].
Qed.

Lemma model_selection_gate_witness :
  (truthy None && truthy None = false /\ truthy (Some "anthropic") = true /\
   truthy (Some "m") = true /\ normalize "Fix it" = normalize "fix it" /\
   1000%Z <> 0%Z /\ (5000 - 1000 < AWAITING_MODEL_WINDOW_MS)%Z) /\
  execute (Some "/p") (mkParams "Fix it" (Some "anthropic") (Some "m") None) 5000
    (fst (execute (Some "/p") (mkParams "fix it" None None None) 1000 sample_tools))
  = (fst (execute (Some "/p") (mkParams "fix it" None None None) 1000 sample_tools), AwaitingModel).
Proof.
  assert (H1 : truthy None && truthy None = false) by reflexivity.
  assert (H2 : truthy (Some "anthropic") = true) by reflexivity.
  assert (H3 : truthy (Some "m") = true) by reflexivity.
  assert (H4 : normalize "Fix it" = normalize "fix it") by reflexivity.
  assert (H5 : 1000%Z <> 0%Z) by lia.
  assert (H6 : (5000 - 1000 < AWAITING_MODEL_WINDOW_MS)%Z) by (unfold AWAITING_MODEL_WINDOW_MS; lia).
  split; [tauto|].
  exact (proj2 (proj2 (proj2 (proj2 (model_selection_gate "/p" "fix it" "Fix it" None None
           (Some "anthropic") (Some "m") None 1000 5000 sample_tools H1 H2 H3 H4 H5 H6))))).
Defined.

(** Against a fresh server, the processes spawned by any sequence of
    [rig_dispatch] calls are bridge_1, bridge_2, ... in spawn order, one
    per id taken from [bridgeIdCounter]: no two dispatches share a bridge
    id. *)
Theorem dispatched_bridge_ids_distinct (calls : list (option string * params * Z))
    (rd : gmap string (Z * string)) (aw : gmap string Z) :
  let st := run_calls calls (mkTools rd aw 0 []) in
  spawned st = (fun k => bridge_id (N.of_nat k)) <$> seq 1 (N.to_nat (bridgeIdCounter st)) /\
  NoDup (spawned st).
Proof.
  assert (H : forall l st,
            spawned st = (fun k => bridge_id (N.of_nat k)) <$> seq 1 (N.to_nat (bridgeIdCounter st)) ->
            spawned (run_calls l st)
            = (fun k => bridge_id (N.of_nat k)) <$> seq 1 (N.to_nat (bridgeIdCounter (run_calls l st)))).
  { intros l. induction l as [|[[r p] t] l IH]; intros st Hs; [done|].
    apply IH. destruct (execute_spawn_cases r p t st) as [[-> ->]|[-> ->]]; [done|].
    rewrite Hs, N2Nat.inj_add, Nat.add_1_r, seq_S, fmap_app. simpl. do 3 f_equal. lia. }
  intros st. specialize (H calls (mkTools rd aw 0 []) eq_refl). fold st in H.
  split; [exact H|]. rewrite H.
  apply NoDup_fmap_2; [|apply NoDup_seq].
  intros k1 k2 E. apply bridge_id_inj in E. lia.
Qed.

End RigDispatchMore.

(* ------------------------------------------------------------------ *)
(** ** Operator sessions: model selection after [clearConversation] *)
(* ------------------------------------------------------------------ *)

Module OperatorModelProofs.
Import Reaper OperatorModel.

Lemma active_get_filter l cid :
  active_get (filter (fun kv => kv.1 <> cid) l) cid = None.
Proof.
  unfold active_get. induction l as [|[k c] l IH]; [done|].
  rewrite filter_cons. case_decide as H; simpl in *.
  - rewrite bool_decide_false by done. exact IH.
  - exact IH.
Qed.

Lemma nullish_none {A} (a : option A) : nullish a None = a.
Proof. by destruct a. Qed.

(** [clearConversation] ends the conversation and forgets its pi session
    ([sessionFile], [sessionId]). With [preserveModel] (the default) and a
    known provider and model id (from the live conversation, else from the
    stored record), it keeps a record of that model and thinking level, and
    [getConversationModel] then answers exactly that choice; otherwise it
    deletes the record and [getConversationModel] answers the configured
    default model. *)
Theorem clear_keeps_model_not_session (d : defaults) (preserveModel : option bool) (now : Z)
    (m : manager) (cid : string) :
  let act := active_get (active m) cid in
  let stored := store m !! cid in
  let mp := or_opt (act ≫= modelProvider) (stored ≫= r_modelProvider) in
  let mi := or_opt (act ≫= modelId) (stored ≫= r_modelId) in
  let tl := or_opt (act ≫= thinkingLevel) (stored ≫= r_thinkingLevel) in
  let m' := clearConversation preserveModel now m cid in
  active_get (active m') cid = None /\
  (default true preserveModel && RigDispatch.truthy mp && RigDispatch.truthy mi = true ->
   store m' !! cid = Some (mkRecord cid None None mp mi tl now) /\
   getConversationModel d m' cid = mkChoice mp mi tl) /\
  (default true preserveModel && RigDispatch.truthy mp && RigDispatch.truthy mi = false ->
   store m' !! cid = None /\
   getConversationModel d m' cid = mkChoice (d_provider d) (d_modelId d) (d_thinkingLevel d)).
Proof.
  intros act stored mp mi tl m'.
  assert (A : active_get (active m') cid = None).
  { unfold m', clearConversation. fold act.
    destruct act as [a|] eqn:Ea; cbn [active]; [apply active_get_filter|exact Ea]. }
  assert (S : store m' = if default true preserveModel && RigDispatch.truthy mp
                            && RigDispatch.truthy mi
                         then <[cid := mkRecord cid None None mp mi tl now]> (store m)
                         else delete cid (store m)).
  { unfold m', clearConversation. fold act stored. fold mp mi tl. by destruct act. }
  split; [exact A|]. split.
  - intros P. rewrite P in S. rewrite S, lookup_insert_eq. split; [done|].
    unfold getConversationModel. rewrite A, S, lookup_insert_eq. cbn -[or_opt].
    apply andb_prop in P as [P Hmi]. apply andb_prop in P as [_ Hmp].
    rewrite Hmp, Hmi. cbn [andb]. rewrite nullish_none.
    unfold or_opt at 1 2. by rewrite Hmp, Hmi.
  - intros P. rewrite P in S. rewrite S, lookup_delete_eq. split; [done|].
    unfold getConversationModel. rewrite A, S, lookup_delete_eq. done.
Qed.

Definition sample_defaults : defaults := mkDefaults (Some "anthropic") (Some "sonnet") (Some "low").

Definition sample_live : manager :=
  mkManager [("c1", mkConv "c1" 7 (Some "/s1.jsonl") (Some "s1") (Some "openai") (Some "gpt")
                             None 100)]
    ∅ [].

Lemma clear_keeps_model_not_session_witness :
  clearConversation None 500 sample_live "c1"
  = mkManager [] {[ "c1" := mkRecord "c1" None None (Some "openai") (Some "gpt") None 500 ]} [7] /\
  getConversationModel sample_defaults (clearConversation None 500 sample_live "c1") "c1"
  = mkChoice (Some "openai") (Some "gpt") None /\
  getConversationModel sample_defaults (clearConversation (Some false) 500 sample_live "c1") "c1"
  = mkChoice (Some "anthropic") (Some "sonnet") (Some "low").
Proof.
  split; [reflexivity|]. split.
  - exact (proj2 (proj1 (proj2 (clear_keeps_model_not_session sample_defaults None 500
             sample_live "c1")) eq_refl)).
  - exact (proj2 (proj2 (proj2 (clear_keeps_model_not_session sample_defaults (Some false) 500
             sample_live "c1")) eq_refl)).
Defined.

End OperatorModelProofs.

(* ------------------------------------------------------------------ *)
(** ** Text helpers: path segments, tokens and titles *)
(* ------------------------------------------------------------------ *)

Module RigTextProofs.
Import RigText.

Lemma list_ascii_of_string_app (a b : string) :
  String.list_ascii_of_string (a +:+ b)
  = String.list_ascii_of_string a ++ String.list_ascii_of_string b.
Proof. induction a as [|c a IH]; [done|]. simpl. by rewrite IH. Qed.

Lemma split_on_nil c l : split_on c l <> [].
Proof.
  destruct l as [|x r]; simpl; [done|].
  destruct (Ascii.eqb x c); [done|]. by destruct (split_on c r).
Qed.

Lemma split_on_app c l1 l2 :
  split_on c (l1 ++ c :: l2) = split_on c l1 ++ split_on c l2.
Proof.
  induction l1 as [|x l1 IH]; simpl.
  - by rewrite Ascii.eqb_refl.
  - destruct (Ascii.eqb x c); [by rewrite IH|]. rewrite IH.
    destruct (split_on c l1) as [|w ws] eqn:E; [by apply split_on_nil in E|]. done.
Qed.

Lemma split_on_no_sep c l : c ∉ l -> split_on c l = [l].
Proof.
  induction l as [|x l IH]; intros H; [done|]. simpl.
  rewrite not_elem_of_cons in H. destruct H as [Hx Hl].
  destruct (Ascii.eqb_spec x c) as [->|_]; [done|]. by rewrite IH.
Qed.

Lemma split_on_parts c l : Forall (fun w => c ∉ w) (split_on c l).
Proof.
  induction l as [|x l IH]; simpl.
  - repeat constructor. apply not_elem_of_nil.
  - destruct (Ascii.eqb_spec x c) as [->|Hx]; [by constructor; [apply not_elem_of_nil|]|].
    destruct (split_on c l) as [|w ws].
    { repeat constructor. rewrite not_elem_of_cons. split; [auto|apply not_elem_of_nil]. }
    apply Forall_cons in IH as [Hw Hws]. constructor; [|done].
    rewrite not_elem_of_cons. auto.
Qed.

Lemma nonempty_filter_snoc (xs : list (list Ascii.ascii)) (w : list Ascii.ascii) :
  w <> [] ->
  List.filter (fun w => match w with [] => false | _ => true end) (xs ++ [w])
  = List.filter (fun w => match w with [] => false | _ => true end) xs ++ [w].
Proof. intros H. rewrite List.filter_app. simpl. by destruct w. Qed.

(** The name shown for a project directory, and the base name matched by
    [resolveDispatchCwd], is the last segment of its path: for a path
    [dir + "/" + name] with a non-empty [name] without "/", both
    [projectNameFromCwd] and [pathBasename] give [name], whatever [dir] is. *)
Theorem last_path_segment (dir name : string) :
  name <> "" -> slash ∉ String.list_ascii_of_string name ->
  projectNameFromCwd (dir +:+ "/" +:+ name) = name /\
  pathBasename (dir +:+ "/" +:+ name) = name.
Proof.
  intros Hne Hs.
  assert (P : last (path_parts (dir +:+ "/" +:+ name)) = Some (String.list_ascii_of_string name)).
  { unfold path_parts. rewrite !list_ascii_of_string_app.
    change (String.list_ascii_of_string "/") with [slash]. simpl.
    rewrite split_on_app, (split_on_no_sep _ _ Hs), nonempty_filter_snoc.
    - apply last_snoc.
    - intros E. apply Hne. by rewrite <- (String.string_of_list_ascii_of_string name), E. }
  unfold projectNameFromCwd, pathBasename. rewrite P.
  destruct (String.list_ascii_of_string name) as [|c r] eqn:E.
  - exfalso. apply Hne. by rewrite <- (String.string_of_list_ascii_of_string name), E.
  - by rewrite <- E, String.string_of_list_ascii_of_string.
Qed.

Lemma last_path_segment_witness :
  ("proj" <> "" /\ slash ∉ String.list_ascii_of_string "proj") /\
  projectNameFromCwd ("/home/u" +:+ "/" +:+ "proj") = "proj".
Proof.
  assert (H1 : "proj" <> "") by discriminate.
  assert (H2 : slash ∉ String.list_ascii_of_string "proj").
  { cbn. rewrite !not_elem_of_cons. repeat split; try discriminate. apply not_elem_of_nil. }
  split; [by split|]. exact (proj1 (last_path_segment "/home/u" "proj" H1 H2)).
Defined.

Lemma join_with_cons_cons c x w ws :
  join_with c ((x :: w) :: ws) = x :: join_with c (w :: ws).
Proof. by destruct ws. Qed.

Lemma join_split_on c l : join_with c (split_on c l) = l.
Proof.
  induction l as [|x r IH]; [done|]. simpl.
  destruct (Ascii.eqb_spec x c) as [->|_].
  - destruct (split_on c r) as [|w ws] eqn:E; [by apply split_on_nil in E|].
    change ([] ++ c :: join_with c (w :: ws) = c :: r). by rewrite IH.
  - destruct (split_on c r) as [|w ws] eqn:E; [by apply split_on_nil in E|].
    by rewrite join_with_cons_cons, IH.
Qed.

Lemma join_with_app c xs ys :
  xs <> [] -> ys <> [] -> join_with c (xs ++ ys) = join_with c xs ++ c :: join_with c ys.
Proof.
  intros Hx Hy. induction xs as [|x xs IH]; [congruence|]. destruct xs as [|x' xs'].
  - destruct ys as [|y ys']; [congruence|reflexivity].
  - cbn [app] in IH |- *.
    change (join_with c (x :: x' :: xs' ++ ys))
      with (x ++ c :: join_with c (x' :: xs' ++ ys)).
    rewrite IH by discriminate.
    change (join_with c (x :: x' :: xs')) with (x ++ c :: join_with c (x' :: xs')).
    by rewrite <- app_assoc.
Qed.

Lemma join_with_head c w ys :
  join_with c (w :: ys) = w ++ match ys with [] => [] | _ => c :: join_with c ys end.
Proof. destruct ys; simpl; [by rewrite app_nil_r|done]. Qed.

Lemma join_with_Forall (P : Ascii.ascii -> Prop) sep ws :
  P sep -> Forall (Forall P) ws -> Forall P (join_with sep ws).
Proof.
  intros Hs. induction 1 as [|w ws Hw Hws IH]; [by constructor|].
  destruct ws as [|w' ws']; [exact Hw|].
  change (Forall P (w ++ sep :: join_with sep (w' :: ws'))).
  apply Forall_app. split; [done|]. by constructor.
Qed.

Lemma join_with_empties c ys :
  Forall (fun y => y = []) ys -> Forall (fun x => x = c) (join_with c ys).
Proof.
  intros H. apply join_with_Forall; [done|]. eapply Forall_impl; [exact H|].
  intros y ->. constructor.
Qed.

Lemma last_filter_Some {A} (f : A -> bool) xs w :
  last (List.filter f xs) = Some w ->
  f w = true /\ exists X Y, xs = X ++ w :: Y /\ Forall (fun y => f y = false) Y.
Proof.
  induction xs as [|x xs IH] using rev_ind; [discriminate|].
  rewrite List.filter_app. cbn [List.filter]. destruct (f x) eqn:Ex.
  - rewrite last_snoc. intros [= <-]. split; [done|]. by exists xs, [].
  - rewrite app_nil_r. intros H. destruct (IH H) as (Hw & X & Y & -> & HY).
    split; [done|]. exists X, (Y ++ [x]). split; [by rewrite <- app_assoc|].
    apply Forall_app. by split; [|constructor].
Qed.

Lemma last_filter_None {A} (f : A -> bool) xs :
  last (List.filter f xs) = None -> Forall (fun y => f y = false) xs.
Proof.
  intros H. apply last_None in H. induction xs as [|x xs IH]; [constructor|].
  simpl in H. destruct (f x) eqn:Ex; [discriminate|]. constructor; auto.
Qed.

Lemma nonempty_false (y : list Ascii.ascii) :
  match y with [] => false | _ => true end = false -> y = [].
Proof. by destruct y. Qed.

(** [projectNameFromCwd] answers the last non-empty segment of the path:
    a non-empty name without "/", preceded in the path by nothing or by
    a "/" and followed only by "/"s. When the path has no non-empty
    segment (it consists of "/"s only, such as "" or "///"), it answers
    "unknown". *)
Theorem project_name_is_segment (cwd : string) :
  (Forall (fun c => c = slash) (String.list_ascii_of_string cwd) /\
   projectNameFromCwd cwd = "unknown") \/
  (projectNameFromCwd cwd <> "" /\
   (slash ∉ String.list_ascii_of_string (projectNameFromCwd cwd)) /\
   exists pre post,
     String.list_ascii_of_string cwd
       = pre ++ String.list_ascii_of_string (projectNameFromCwd cwd) ++ post /\
     (pre = [] \/ last pre = Some slash) /\ Forall (fun c => c = slash) post).
Proof.
  unfold projectNameFromCwd, path_parts.
  pose proof (join_split_on slash (String.list_ascii_of_string cwd)) as J.
  pose proof (split_on_parts slash (String.list_ascii_of_string cwd)) as P.
  destruct (last (List.filter (fun w => match w with [] => false | _ => true end)
                    (split_on slash (String.list_ascii_of_string cwd)))) as [w|] eqn:E.
  - destruct (last_filter_Some _ _ _ E) as (Hw & X & Y & ES & HY).
    destruct w as [|x r]; [discriminate|]. right.
    rewrite String.list_ascii_of_string_of_list_ascii. split; [discriminate|].
    split.
    { rewrite Forall_forall in P. apply P. rewrite ES. apply list_elem_of_In, in_or_app. simpl; auto. }
    assert (HY' : Forall (fun y => y = []) Y).
    { eapply Forall_impl; [exact HY|]. apply nonempty_false. }
    set (post := match Y with [] => [] | _ => slash :: join_with slash Y end).
    assert (Hpost : Forall (fun c => c = slash) post).
    { subst post. destruct Y; [constructor|]. constructor; [done|]. by apply join_with_empties. }
    rewrite ES in J. destruct X as [|x0 X'].
    + exists [], post. rewrite <- J. simpl app. split; [apply join_with_head|]. auto.
    + exists (join_with slash (x0 :: X') ++ [slash]), post.
      rewrite <- J, join_with_app, (join_with_head slash (x :: r) Y) by discriminate.
      split; [by rewrite <- app_assoc|]. split; [right; apply last_snoc|done].
  - left. split; [|done]. rewrite <- J. apply join_with_empties.
    eapply Forall_impl; [exact (last_filter_None _ _ E)|]. apply nonempty_false.
Qed.

(** ** [compactToken] *)

Lemma token_char_lower c : token_char c = true -> RigDispatch.to_lower c = c.
Proof. destruct c as [[] [] [] [] [] [] [] []]; vm_compute; congruence. Qed.

Lemma token_char_not_space c : token_char c = true -> RigDispatch.is_space c = false.
Proof. destruct c as [[] [] [] [] [] [] [] []]; vm_compute; congruence. Qed.

Lemma List_filter_all {A} (f : A -> bool) l : Forall (fun x => f x = true) l -> List.filter f l = l.
Proof. induction 1 as [|x l Hx _ IH]; [done|]. simpl. by rewrite Hx, IH. Qed.

Lemma filter_token l : Forall (fun c => token_char c = true) (List.filter token_char l).
Proof.
  apply Forall_forall. intros x Hx. apply list_elem_of_In, filter_In in Hx. tauto.
Qed.

Lemma drop_ws_id l : Forall (fun c => RigDispatch.is_space c = false) l -> RigDispatch.drop_ws l = l.
Proof. destruct 1 as [|x l Hx _]; [done|]. simpl. by rewrite Hx. Qed.

Lemma trim_id l : Forall (fun c => RigDispatch.is_space c = false) l -> RigDispatch.trim l = l.
Proof.
  intros H. unfold RigDispatch.trim. rewrite (drop_ws_id l H).
  rewrite drop_ws_id; [apply rev_involutive|]. by apply Forall_rev.
Qed.

Lemma compact_list l :
  RigDispatch.trim (List.filter token_char l) = List.filter token_char l.
Proof.
  apply trim_id. eapply Forall_impl; [apply filter_token|]. apply token_char_not_space.
Qed.

(** [compactToken] keeps only lower-case letters, digits, "_" and "-",
    and applying it to its own result changes nothing: a token compared
    with [compactToken] of a name is already in the form it compares. *)
Theorem compactToken_idempotent (input : string) :
  Forall (fun c => token_char c = true) (String.list_ascii_of_string (compactToken input)) /\
  compactToken (compactToken input) = compactToken input.
Proof.
  unfold compactToken. rewrite String.list_ascii_of_string_of_list_ascii, compact_list.
  split; [apply filter_token|]. f_equal.
  rewrite map_ext_Forall with (g := id).
  - rewrite map_id, List_filter_all by apply filter_token. by rewrite compact_list.
  - eapply Forall_impl; [apply filter_token|]. apply token_char_lower.
Qed.

(** ** [titleFromPrompt] *)

Lemma drop_js_ws_suffix l : exists p, l = p ++ drop_js_ws l.
Proof.
  induction l as [|c l [p IH]]; [by exists []|]. simpl.
  destruct (js_space c); [exists (c :: p); by rewrite IH at 1|]. by exists [].
Qed.

Lemma drop_js_ws_head l :
  drop_js_ws l = [] \/ exists c r, drop_js_ws l = c :: r /\ js_space c = false.
Proof.
  induction l as [|c l IH]; [by left|]. simpl.
  destruct (js_space c) eqn:E; [done|]. right. by exists c, l.
Qed.

Lemma js_trim_shape l :
  js_trim l = [] \/
  exists c r d, js_trim l = c :: r /\ js_space c = false /\
    last (c :: r) = Some d /\ js_space d = false.
Proof.
  unfold js_trim.
  destruct (drop_js_ws_head (rev (drop_js_ws l))) as [->|(c' & r' & Eb & Hc')]; [by left|].
  right. rewrite Eb.
  destruct (drop_js_ws_suffix (rev (drop_js_ws l))) as [p Ep]. rewrite Eb in Ep.
  destruct (drop_js_ws_head l) as [Ea|(c & r & Ea & Hc)].
  { rewrite Ea in Ep. destruct p; discriminate. }
  rewrite Ea in Ep. simpl in Ep.
  assert (L : last (rev r ++ [c]) = last (p ++ c' :: r')) by (by rewrite Ep).
  rewrite last_snoc, last_app_cons in L.
  destruct (last (c' :: r')) as [y|] eqn:Ey; [|by destruct r'].
  injection L as <-. apply last_Some in Ey as [l' El'].
  assert (R : rev (c' :: r') = c :: rev l') by (rewrite El', rev_app_distr; done).
  rewrite R. exists c, (rev l'), c'. split; [done|]. split; [done|]. split; [|done].
  rewrite <- R. simpl. apply last_snoc.
Qed.

Lemma split_ws_nil l : split_ws l <> [].
Proof.
  induction l as [|x r IH]; simpl; [done|].
  destruct (js_space x).
  - destruct r as [|y r']; [done|]. destruct (js_space y); [exact IH|done].
  - by destruct (split_ws r).
Qed.

Lemma split_ws_words l : Forall (fun w => Forall (fun c => js_space c = false) w) (split_ws l).
Proof.
  induction l as [|x r IH]; simpl; [by repeat constructor|].
  destruct (js_space x) eqn:Ex.
  - destruct r as [|y r']; [by repeat constructor|].
    destruct (js_space y); [exact IH|by constructor].
  - destruct (split_ws r) as [|w ws]; [by repeat constructor|].
    apply Forall_cons in IH as [Hw Hws]. by repeat constructor.
Qed.

Lemma split_ws_nonempty l d :
  last l = Some d -> js_space d = false ->
  Forall (fun w => w <> []) (tail (split_ws l)) /\
  (forall x r, l = x :: r -> js_space x = false -> exists w ws, split_ws l = (x :: w) :: ws).
Proof.
  induction l as [|x r IH]; intros Hl Hd; [discriminate|].
  destruct r as [|y r'].
  - simpl in Hl. injection Hl as ->. simpl. rewrite Hd. split; [constructor|].
    intros x' r [= <- <-] _. by exists [], [].
  - rewrite last_cons in Hl.
    destruct (last (y :: r')) as [d'|] eqn:Er; [|apply last_None in Er; discriminate].
    injection Hl as ->. destruct (IH eq_refl Hd) as [IH1 IH2].
    change (split_ws (x :: y :: r'))
      with (if js_space x then (if js_space y then split_ws (y :: r') else [] :: split_ws (y :: r'))
            else match split_ws (y :: r') with
                 | w :: ws => (x :: w) :: ws
                 | [] => [[x]]
                 end).
    destruct (js_space x) eqn:Ex.
    + split; [|intros ? ? [= -> ->]; congruence].
      destruct (js_space y) eqn:Ey; [exact IH1|]. cbn [tail].
      destruct (IH2 y r' eq_refl Ey) as (w & ws & E). rewrite E. rewrite E in IH1.
      cbn [tail] in IH1. constructor; [discriminate|exact IH1].
    + destruct (split_ws (y :: r')) as [|w ws] eqn:E; [by apply split_ws_nil in E|].
      split; [exact IH1|]. intros x0 r0 [= <- <-] _. by exists w, ws.
Qed.

Lemma replace_crlf_id b l : Forall (fun c => is_crlf c = false) l -> replace_crlf b l = l.
Proof.
  intros H. revert b. induction H as [|x l Hx _ IH]; intros b; [done|]. simpl.
  by rewrite Hx, IH.
Qed.

Lemma crlf_space c : js_space c = false -> is_crlf c = false.
Proof. destruct c as [[] [] [] [] [] [] [] []]; vm_compute; congruence. Qed.

Lemma drop_js_ws_split l :
  exists p, l = p ++ drop_js_ws l /\ Forall (fun c => js_space c = true) p.
Proof.
  induction l as [|c l (p & IH & Hp)]; [by exists []|]. simpl.
  destruct (js_space c) eqn:E; [|by exists []].
  exists (c :: p). split; [by rewrite IH at 1|by constructor].
Qed.

Lemma drop_js_ws_all l : Forall (fun c => js_space c = true) l -> drop_js_ws l = [].
Proof. induction 1 as [|c l Hc _ IH]; [done|]. simpl. by rewrite Hc. Qed.

Lemma js_trim_split l :
  exists lead trail, l = lead ++ js_trim l ++ trail /\
    Forall (fun c => js_space c = true) lead /\ Forall (fun c => js_space c = true) trail.
Proof.
  destruct (drop_js_ws_split l) as (p1 & E1 & H1).
  destruct (drop_js_ws_split (rev (drop_js_ws l))) as (p2 & E2 & H2).
  exists p1, (rev p2). split; [|split; [done|by apply Forall_rev]].
  unfold js_trim. rewrite E1 at 1. f_equal.
  set (D := drop_js_ws l) in *. set (T := drop_js_ws (rev D)) in *.
  rewrite <- (rev_involutive D), E2, rev_app_distr. done.
Qed.

(** [split(/\s+/)] cuts a list into its parts and the non-empty runs of
    white space between them. *)
Lemma split_ws_gaps l :
  exists p0 ps G, split_ws l = p0 :: ps /\ length G = length ps /\
    Forall (fun g => g <> [] /\ Forall (fun c => js_space c = true) g) G /\
    l = p0 ++ concat (zip_with app G ps).
Proof.
  induction l as [|c r IH]; [by exists [], [], []|].
  destruct IH as (q0 & qs & G0 & Es & HL & HG & Er).
  destruct (js_space c) eqn:Ec.
  - destruct r as [|d r'].
    + exists [], [[]], [[c]]. cbn [split_ws]. rewrite Ec. split; [done|]. split; [done|].
      split; [|done]. constructor; [|constructor]. split; [discriminate|by constructor].
    + destruct (js_space d) eqn:Ed.
      * pose proof (split_ws_words (d :: r')) as W. rewrite Es in W.
        apply Forall_cons in W as [Wq _].
        assert (Q : q0 = []).
        { destruct q0 as [|e q0']; [done|]. injection Er as -> _.
          apply Forall_cons in Wq as [We _]. congruence. }
        subst q0. destruct G0 as [|g G1], qs as [|q qs1]; cbn in HL, Er; try discriminate.
        exists [], (q :: qs1), ((c :: g) :: G1).
        split; [by rewrite <- Es; simpl; rewrite Ec, Ed|].
        split; [done|].
        apply Forall_cons in HG as [[_ Hg] HG1].
        split; [constructor; [split; [done|by constructor]|done]|].
        simpl. rewrite Er. done.
      * exists [], (q0 :: qs), ([c] :: G0).
        split; [by rewrite <- Es; simpl; rewrite Ec, Ed|].
        split; [simpl; by rewrite HL|].
        split; [constructor; [split; [done|by constructor]|done]|].
        simpl. by rewrite Er at 1.
  - exists (c :: q0), qs, G0. split; [simpl; by rewrite Ec, Es|]. split; [done|].
    split; [done|]. simpl. by rewrite Er at 1.
Qed.

Lemma concat_zip_take_drop {A} n (G ps : list (list A)) :
  concat (zip_with app G ps)
  = concat (zip_with app (take n G) (take n ps)) ++ concat (zip_with app (drop n G) (drop n ps)).
Proof.
  revert G ps. induction n as [|n IH]; intros G ps; [done|].
  destruct G as [|g G'], ps as [|q ps']; cbn [take drop zip_with concat];
    rewrite ?zip_with_nil_r; try done.
  cbn [take drop zip_with concat]. rewrite (IH G' ps'). by rewrite !app_assoc.
Qed.

(** The title of a dispatched task is at most seven words of the prompt,
    the first ones, joined by single spaces. The prompt is the title's
    words [ws], each preceded by its run of white space [seps] (all of them
    non-empty but the first), followed by a [rest] that is white space
    only, or, when there are seven words, starts with white space; the
    words are non-empty and contain no white space (so no line break or
    tab survives). The title is empty exactly when the prompt is blank. *)
Theorem title_is_at_most_seven_words (prompt : string) :
  (titleFromPrompt prompt = "" <->
   Forall (fun c => js_space c = true) (String.list_ascii_of_string prompt)) /\
  exists ws seps rest,
    length ws <= 7 /\ length seps = length ws /\
    Forall (fun w => w <> [] /\ Forall (fun c => js_space c = false) w) ws /\
    Forall (Forall (fun c => js_space c = true)) seps /\
    Forall (fun g => g <> []) (tail seps) /\
    String.list_ascii_of_string prompt = concat (zip_with app seps ws) ++ rest /\
    (Forall (fun c => js_space c = true) rest \/
     (length ws = 7 /\ exists c r, rest = c :: r /\ js_space c = true)) /\
    titleFromPrompt prompt = String.string_of_list_ascii (join_with space ws).
Proof.
  destruct (js_trim_split (String.list_ascii_of_string prompt)) as (lead & trail & El & Hl & Ht).
  unfold titleFromPrompt.
  destruct (js_trim_shape (String.list_ascii_of_string prompt)) as [E0|(c & r & d & E & Hc & Hd0 & Hd)].
  { rewrite E0 in El |- *. simpl in El.
    assert (Hall : Forall (fun c => js_space c = true) (String.list_ascii_of_string prompt)).
    { rewrite El. by apply Forall_app. }
    split; [done|]. exists [], [], (String.list_ascii_of_string prompt).
    split; [simpl; lia|]. split; [done|]. split; [constructor|]. split; [constructor|].
    split; [constructor|]. split; [done|]. split; [by left|done]. }
  rewrite E in El |- *.
  destruct (split_ws_nonempty (c :: r) d Hd0 Hd) as [H1 H2].
  destruct (H2 c r eq_refl Hc) as (w & ws0 & Ew).
  destruct (split_ws_gaps (c :: r)) as (p0 & ps & G & Es & HL & HG & Er).
  rewrite Ew in Es. injection Es as <- <-. rewrite Ew in H1. simpl in H1.
  assert (W : Forall (fun w => w <> [] /\ Forall (fun c => js_space c = false) w)
                ((c :: w) :: ws0)).
  { pose proof (split_ws_words (c :: r)) as H3. rewrite Ew in H3.
    apply Forall_cons in H3 as [Hw Hws]. constructor; [split; [done|exact Hw]|].
    apply Forall_and; split; [exact H1|exact Hws]. }
  rewrite Ew.
  assert (T : replace_crlf false (join_with space (take 7 ((c :: w) :: ws0)))
              = join_with space ((c :: w) :: take 6 ws0)).
  { rewrite replace_crlf_id; [done|]. apply join_with_Forall; [reflexivity|].
    eapply Forall_impl; [by apply Forall_take|]. intros v [_ Hv].
    eapply Forall_impl; [exact Hv|]. apply crlf_space. }
  rewrite T. split.
  { rewrite join_with_head. split; [discriminate|]. rewrite El.
    intros F. apply Forall_app in F as [_ F]. apply Forall_app in F as [F _].
    apply Forall_cons in F as [F _]. congruence. }
  exists ((c :: w) :: take 6 ws0), (lead :: take 6 G),
    (concat (zip_with app (drop 6 G) (drop 6 ws0)) ++ trail).
  split; [simpl; pose proof (firstn_le_length 6 ws0); lia|].
  split; [simpl; by rewrite !length_take, HL|].
  split; [apply Forall_cons in W as [W0 W1]; constructor; [done|by apply Forall_take]|].
  split.
  { constructor; [done|]. apply Forall_take. eapply Forall_impl; [exact HG|].
    intros x [_ Hx]; exact Hx. }
  split.
  { cbn [tail]. apply Forall_take. eapply Forall_impl; [exact HG|].
    intros x [Hx _]; exact Hx. }
  split.
  { rewrite El, Er, (concat_zip_take_drop 6 G ws0). simpl.
    rewrite <- !app_assoc. simpl. by rewrite <- ?app_assoc. }
  split; [|done].
  destruct (decide (length ws0 <= 6)) as [Hle|Hgt].
  - left. rewrite (drop_ge ws0 6 Hle), (drop_ge G 6) by lia.
    by destruct (drop 6 G).
  - right. split; [simpl; rewrite length_take; lia|].
    destruct (drop 6 G) as [|g G'] eqn:EG.
    { pose proof (length_drop G 6) as LD. rewrite EG in LD. simpl in LD. lia. }
    destruct (drop 6 ws0) as [|q ws'] eqn:EQ.
    { pose proof (length_drop ws0 6) as LD. rewrite EQ in LD. simpl in LD. lia. }
    assert (Hg : g <> [] /\ Forall (fun c => js_space c = true) g).
    { rewrite Forall_forall in HG. apply HG. apply list_elem_of_In.
      rewrite <- (take_drop 6 G), EG. apply in_or_app. simpl; auto. }
    destruct g as [|e g']; [tauto|]. destruct Hg as [_ Hg].
    apply Forall_cons in Hg as [He _].
    exists e, ((g' ++ q ++ concat (zip_with app G' ws')) ++ trail). split; [|done].
    cbn [zip_with concat]. by rewrite <- !app_assoc.
Qed.

End RigTextProofs.

(* ------------------------------------------------------------------ *)
(** ** [resolveDispatchCwd]: only registered projects *)
(* ------------------------------------------------------------------ *)

Module DispatchCwdProofs.
Import DispatchCwd.

Definition listed (raw : list rproject) (p : rproject) : Prop :=
  p ∈ raw /\ valid_project p = true.

Lemma filtered_listed raw : Forall (listed raw) (List.filter valid_project raw).
Proof.
  apply Forall_forall. intros p Hp. apply list_elem_of_In, filter_In in Hp as [Hin Hv].
  split; [by apply list_elem_of_In|exact Hv].
Qed.

Lemma Forall_filter_sub {A} (Q : A -> Prop) f l : Forall Q l -> Forall Q (List.filter f l).
Proof.
  rewrite !Forall_forall. intros H x Hx. apply list_elem_of_In, filter_In in Hx as [Hx _].
  apply H. by apply list_elem_of_In.
Qed.

Lemma valid_path p : valid_project p = true -> path p = Some (default "" (path p)).
Proof. unfold valid_project. destruct (path p); [done|discriminate]. Qed.

Lemma first12 {A} (Q : A -> Prop) (l : list A) :
  Forall Q l -> length (firstn 12 l) <= 12 /\ Forall Q (firstn 12 l).
Proof. intros H. split; [apply firstn_le_length|by apply Forall_take]. Qed.

(** Whatever the message and the hint, and whatever the folder-name
    regular expressions match, [resolveDispatchCwd] only answers [ok] with
    the [path] of a project listed by [GET /api/projects] (one with a path
    and a name); and when it fails, the projects it offers to pick from
    are at most 12, all of them listed ones. *)
Theorem resolved_cwd_is_registered (rx rx2 : string -> option string) (raw : list rproject)
    (message : string) (cwdHint : option string) :
  (forall cwd, resolveDispatchCwd rx rx2 raw message cwdHint = ROk cwd ->
     exists p, listed raw p /\ path p = Some cwd) /\
  (forall e ps, resolveDispatchCwd rx rx2 raw message cwdHint = RErr e ps ->
     length ps <= 12 /\ Forall (listed raw) ps).
Proof.
  pose proof (filtered_listed raw) as HP.
  unfold resolveDispatchCwd.
  generalize dependent (List.filter valid_project raw). intros P HP.
  destruct P as [|p0 P'] eqn:EP.
  { split; [discriminate|]. intros e ps [= _ <-]. split; [simpl; lia|constructor]. }
  rewrite <- EP. rewrite <- EP in HP.
  destruct (extractExplicitFolderTarget rx rx2 message cwdHint) as [t|].
  - match goal with |- context [List.filter ?f P] => set (exact := List.filter f P) end.
    assert (HE : Forall (listed raw) exact) by (by apply Forall_filter_sub).
    destruct exact as [|p [|p' ex]] eqn:Ex.
    + split; [discriminate|]. intros e ps [= _ <-].
      apply first12. by apply Forall_filter_sub.
    + split; [|discriminate]. intros cwd [= <-].
      apply Forall_cons in HE as [Hp _]. exists p. split; [exact Hp|].
      apply valid_path, Hp.
    + split; [discriminate|]. intros e ps [= _ <-]. exact (first12 _ _ HE).
  - destruct (String.prefix "/" _).
    + destruct (List.find _ P) as [d|] eqn:Ef.
      * split; [|discriminate]. intros cwd [= <-].
        apply find_some in Ef as [Hin _]. rewrite Forall_forall in HP.
        assert (Hd : listed raw d) by (apply HP, list_elem_of_In, Hin).
        exists d. split; [exact Hd|]. apply valid_path, Hd.
      * split; [discriminate|]. intros e ps [= _ <-]. by apply first12.
    + split; [discriminate|]. intros e ps [= _ <-]. by apply first12.
Qed.

Definition sample_raw : list rproject :=
  [mkProject (Some "/home/u/rig") (Some "Rig"); mkProject (Some "/home/u/site") None;
   mkProject (Some "/home/u/api") (Some "API")].

Lemma resolved_cwd_is_registered_witness :
  resolveDispatchCwd (fun _ => Some "rig") (fun _ => None) sample_raw "fix it in rig folder" None
  = ROk "/home/u/rig" /\
  exists p, listed sample_raw p /\ path p = Some "/home/u/rig".
Proof.
  assert (H : resolveDispatchCwd (fun _ => Some "rig") (fun _ => None) sample_raw
                "fix it in rig folder" None = ROk "/home/u/rig") by (vm_compute; reflexivity).
  split; [exact H|].
  exact (proj1 (resolved_cwd_is_registered (fun _ => Some "rig") (fun _ => None) sample_raw
                  "fix it in rig folder" None) _ H).
Defined.

End DispatchCwdProofs.

(* ------------------------------------------------------------------ *)
(** ** The session WebSocket: forwarding [extension_ui_response] *)
(* ------------------------------------------------------------------ *)

Module WsMessageProofs.
Import WsMessage.

Lemma get_payload_other d k :
  k <> "type" ->
  get (JObj (("type", JStr "extension_ui_response") :: d)) k = get (JObj d) k.
Proof.
  intros Hk. cbn [get lookup_last]. destruct (lookup_last d k); [done|].
  destruct (String.eqb_spec "type" k); congruence.
Qed.

Lemma ui_payload_obj d :
  exists p, ui_payload (Some (JObj d)) = Some p /\
    get p "type" = Some (default (JStr "extension_ui_response") (get (JObj d) "type")) /\
    forall k, k <> "type" -> get p k = get (JObj d) k.
Proof.
  unfold ui_payload. cbn [is_object]. destruct (str_eq (get (JObj d) "type") "extension_ui_response") eqn:E.
  - eexists. split; [reflexivity|]. split; [|done].
    unfold str_eq in E. destruct (get (JObj d) "type") as [[| | |s| |]|]; try discriminate.
    apply String.eqb_eq in E. by subst.
  - eexists. split; [reflexivity|]. split; [|apply get_payload_other].
    cbn [get lookup_last spread_src]. by destruct (lookup_last d "type").
Qed.

(** An [extension_ui_response] message whose [data] is an object is
    written to the pi process exactly when [data.id] is a string. The line
    written carries every field of [data] unchanged, and its [type] is
    "extension_ui_response" only when [data] has no [type] of its own:
    a [data.type] the client sets is written as it is. *)
Theorem ui_response_forwards_data (kvs d : list (string * jval)) :
  get (JObj kvs) "type" = Some (JStr "extension_ui_response") ->
  get (JObj kvs) "data" = Some (JObj d) ->
  (is_string (get (JObj d) "id") = true ->
   exists p, handle (Some (JObj kvs)) = SendRaw p /\
     get p "type" = Some (default (JStr "extension_ui_response") (get (JObj d) "type")) /\
     forall k, k <> "type" -> get p k = get (JObj d) k) /\
  (is_string (get (JObj d) "id") = false ->
   handle (Some (JObj kvs)) = WsError None "Invalid extension_ui_response payload").
Proof.
  intros Ht Hd. destruct (ui_payload_obj d) as (p & Ep & Hpt & Hpk).
  assert (H : handle (Some (JObj kvs))
              = if is_string (get p "id") then SendRaw p
                else WsError None "Invalid extension_ui_response payload").
  { unfold handle. cbn [is_object negb]. rewrite Ht. cbn -[ui_payload get].
    by rewrite Hd, Ep. }
  rewrite (Hpk "id") in H by discriminate.
  split; intros Hid; rewrite Hid in H; [|exact H]. by exists p.
Qed.

Definition ui_msg : jval :=
  JObj [("type", JStr "extension_ui_response");
        ("data", JObj [("id", JStr "ui_1"); ("type", JStr "prompt"); ("message", JStr "hi")])].

Lemma ui_response_forwards_data_witness :
  (get ui_msg "type" = Some (JStr "extension_ui_response") /\
   get ui_msg "data" = Some (JObj [("id", JStr "ui_1"); ("type", JStr "prompt");
                                   ("message", JStr "hi")])) /\
  exists p, handle (Some ui_msg) = SendRaw p /\ get p "type" = Some (JStr "prompt").
Proof.
  assert (H1 : get ui_msg "type" = Some (JStr "extension_ui_response")) by reflexivity.
  assert (H2 : get ui_msg "data" = Some (JObj [("id", JStr "ui_1"); ("type", JStr "prompt");
                                               ("message", JStr "hi")])) by reflexivity.
  split; [by split|].
  destruct (proj1 (ui_response_forwards_data _ _ H1 H2) eq_refl) as (p & Hp & Ht & _).
  exists p. split; [exact Hp|]. rewrite Ht. reflexivity.
Defined.

End WsMessageProofs.

(* ------------------------------------------------------------------ *)
(** ** [resolveThinkingLevelsForModel] *)
(* ------------------------------------------------------------------ *)

Module ThinkingLevelsProofs.
Import ThinkingLevels.

Lemma cycle_loop_grows cyc fuel i seen seen' n :
  cycle_loop cyc fuel i seen = Some (seen', n) ->
  (forall x, x ∈ seen -> x ∈ seen') /\ n <= i + fuel.
Proof.
  revert i seen. induction fuel as [|fuel IH]; intros i seen H; cbn [cycle_loop] in H.
  - injection H as <- <-. split; [done | lia].
  - destruct (cyc i) as [[success level]|]; [|discriminate].
    destruct (negb success); [injection H as <- <-; split; [done|lia]|].
    destruct (truthy_str level) as [l|]; [|injection H as <- <-; split; [done|lia]].
    case_bool_decide; [injection H as <- <-; split; [done|lia]|].
    destruct (IH _ _ H) as [Hs Hn]. split; [|lia].
    intros x Hx. apply Hs. by apply elem_of_cons; right.
Qed.

Lemma List_filter_sublist {A} (g : A -> bool) l : sublist (List.filter g l) l.
Proof.
  induction l as [|x l IH]; cbn [List.filter]; [constructor|].
  destruct (g x); [by apply sublist_skip | by apply sublist_cons].
Qed.

Lemma FALLBACK_sublist : sublist FALLBACK THINKING_LEVEL_ORDER.
Proof. unfold FALLBACK, THINKING_LEVEL_ORDER. repeat constructor. Qed.

(** When [resolveThinkingLevelsForModel] resolves, the list of levels it
    returns is non-empty, has no duplicates and lists known levels in the
    order of [THINKING_LEVEL_ORDER]; at most [THINKING_LEVEL_ORDER.length + 2]
    cycle commands were sent. A model without reasoning gets ["off"]; for a
    reasoning model the level it was at, when it is a known level, is in
    the list. *)
Theorem resolved_levels_wellformed cyc setResp st levels sent :
  resolveThinkingLevelsForModel cyc setResp (Some st) = Some (levels, sent) ->
  levels <> [] /\ NoDup levels /\ sublist levels THINKING_LEVEL_ORDER /\
  sent <= length THINKING_LEVEL_ORDER + 2 /\
  (st_reasoning st = false -> levels = ["off"]) /\
  (let startLevel := default "off" (truthy_str (st_thinkingLevel st)) in
   st_reasoning st = true -> startLevel ∈ THINKING_LEVEL_ORDER -> startLevel ∈ levels).
Proof.
  unfold resolveThinkingLevelsForModel. intros H.
  destruct setResp as [[]|]; try discriminate.
  destruct (st_success st); [|discriminate]. cbn [negb] in H.
  destruct (st_reasoning st) eqn:Er.
  2:{ injection H as <- <-. split; [done|]. split; [constructor; [set_solver|constructor]|].
      split; [unfold THINKING_LEVEL_ORDER; repeat constructor|]. split; [cbn; lia|].
      split; [done|discriminate]. }
  cbn [negb] in H.
  set (start := default "off" (truthy_str (st_thinkingLevel st))) in *.
  destruct (cycle_loop cyc (length THINKING_LEVEL_ORDER + 2) 0 [start]) as [[seen n]|] eqn:Ec;
    [|discriminate].
  destruct (cycle_loop_grows _ _ _ _ _ _ Ec) as [Hg Hn].
  set (f := List.filter (fun l => bool_decide (l ∈ seen)) THINKING_LEVEL_ORDER) in *.
  assert (Hnd : NoDup THINKING_LEVEL_ORDER) by (unfold THINKING_LEVEL_ORDER; repeat constructor; set_solver).
  assert (Hsub : sublist f THINKING_LEVEL_ORDER).
  { subst f. apply List_filter_sublist. }
  assert (Hin : start ∈ THINKING_LEVEL_ORDER -> start ∈ f).
  { intros Hs. subst f. apply list_elem_of_In, filter_In. split; [by apply list_elem_of_In|].
    apply bool_decide_eq_true. apply Hg. set_solver. }
  injection H as <- <-. split; [destruct f; discriminate|]. split.
  { destruct f eqn:Ef; [|by eapply sublist_NoDup].
    unfold FALLBACK. repeat constructor; set_solver. }
  split; [destruct f eqn:Ef; [apply FALLBACK_sublist|exact Hsub]|].
  split; [lia|]. split; [discriminate|].
  intros _ Hs. destruct f eqn:Ef; [|by apply Hin].
  specialize (Hin Hs). set_solver.
Qed.

Definition st_high : state_resp := mkState true true (Some "high").

(** A reasoning model at "high" that cycles high -> xhigh -> off -> high. *)
Definition cyc_demo (i : nat) : option cycle_resp :=
  match i with
  | 0 => Some (true, Some "xhigh")
  | 1 => Some (true, Some "off")
  | _ => Some (true, Some "high")
  end.

Lemma resolved_levels_wellformed_witness :
  resolveThinkingLevelsForModel cyc_demo (Some true) (Some st_high) = Some (["off"; "high"; "xhigh"], 3) /\
  NoDup ["off"; "high"; "xhigh"].
Proof.
  assert (H : resolveThinkingLevelsForModel cyc_demo (Some true) (Some st_high)
              = Some (["off"; "high"; "xhigh"], 3)) by reflexivity.
  split; [exact H|]. exact (proj1 (proj2 (resolved_levels_wellformed _ _ _ _ _ H))).
Defined.

End ThinkingLevelsProofs.
